(** * AWS IoT FleetWise Edge: policy manager, OBD discovery, CAN reader, sender worker

    A shallow embedding of
    - [src/CollectionSchemeManager.cpp]        (module [CollectionSchemeManager]),
    - [src/OBDOverCANModule.cpp]               (module [OBDOverCANModule]),
    - [CANDataSource.cpp]                      (module [CANDataSource]),
    - [src/DataSenderManagerWorkerThread.cpp]  (module [DataSenderManagerWorkerThread]),
    - [MyBlobDataSource.cpp]                   (module [MyBlobDataSource]),
    followed by the properties of the design document that concern them. *)

From Stdlib Require Import ZArith Lia List Bool.
From stdpp Require Import base gmap strings list fin_maps sorting.

Open Scope Z_scope.

(** Milliseconds since the epoch, [uint64_t] in the source.  The functions
    below only compare timestamps, so no wrap-around occurs. *)
Abbreviation Timestamp := Z (only parsing).
Abbreviation SyncID := string (only parsing).

(* ===================================================================== *)
(** ** CollectionSchemeManager.cpp                                        *)
(* ===================================================================== *)
Module CollectionSchemeManager.

(** What the manager reads of an [ICollectionScheme].  [schemeContent]
    stands for all remaining fields (condition tree, signals, ...), which the
    manager only touches through [operator!=]. *)
Record ICollectionScheme := mkScheme {
  getCollectionSchemeID : SyncID;
  getDecoderManifestID : SyncID;
  getStartTime : Timestamp;
  getExpiryTime : Timestamp;
  schemeContent : Z
}.

#[global] Instance ICollectionScheme_eq_dec : EqDecision ICollectionScheme.
Proof. solve_decision. Defined.

(** An [ICollectionSchemeList]: the result of [build()] and the schemes. *)
Record ICollectionSchemeList := mkSchemeList {
  buildSchemes : bool;
  getCollectionSchemes : list ICollectionScheme
}.

(** An [IDecoderManifest]: the result of [build()] and its [getID()]. *)
Record IDecoderManifest := mkManifest {
  buildManifest : bool;
  getID : SyncID
}.

(** An entry of the time line.  Of the [TimePoint] of the source the functions
    below read [systemTimeMs] only (the monotonic part goes to log messages),
    so [time] is that system time: [timePointFromSystemTime( currTime, t )]
    is the entry time [t]. *)
Record TimeData := mkTimeData {
  time : Timestamp;
  id : SyncID
}.

#[global] Instance TimeData_eq_dec : EqDecision TimeData.
Proof. solve_decision. Defined.

Abbreviation SchemeMap := (gmap string ICollectionScheme) (only parsing).

(** Modelled from the spec: the header declaring [mTimeLine] and the order of
    [TimeData] is not part of the sources; the spec describes the time line as
    a min-heap of (wall time, scheme id) pairs.  The heap is kept as a list in
    ascending time: [top] is its head, [pop] its tail, [push] an ordered
    insertion (after the entries of equal time). *)
Fixpoint push (e : TimeData) (tl : list TimeData) : list TimeData :=
  match tl with
  | [] => [e]
  | x :: tl' => if time e <? time x then e :: x :: tl' else x :: push e tl'
  end.

(** Modelled from the spec: [store(DataType)] and [CacheAndPersist] are not
    part of the sources; the spec keeps one blob per logical name, here the
    last document stored under [decoder-manifest] and
    [collection-scheme-list]. *)
Record Persistency := mkPersistency {
  persistedDecoderManifest : option IDecoderManifest;
  persistedCollectionSchemeList : option ICollectionSchemeList
}.

Record State := mkState {
  mEnabledCollectionSchemeMap : SchemeMap;
  mIdleCollectionSchemeMap : SchemeMap;
  mTimeLine : list TimeData;
  mCurrentDecoderManifestID : SyncID;
  mCollectionSchemeList : option ICollectionSchemeList;
  mDecoderManifest : option IDecoderManifest;
  mProcessCollectionScheme : bool;
  mProcessDecoderManifest : bool;
  mSchemaPersistency : Persistency;
  (** calls of [mCheckinSender->onCheckinDocumentsChanged], oldest first *)
  mCheckinSender : list (list SyncID);
  (** calls of [mCollectionSchemeListChangeListeners.notify], oldest first *)
  mCollectionSchemeListChangeListeners : list (list ICollectionScheme);
  (** calls of [mCustomSignalDecoderFormatMapChangeListeners.notify] *)
  mCustomSignalDecoderFormatMapChangeListeners : list SyncID;
  (** [TraceAtomicVariable::COLLECTION_SCHEME_ERROR] *)
  collectionSchemeError : nat
}.

Definition setMaps (en idle : SchemeMap) (tl : list TimeData) (s : State) : State :=
  mkState en idle tl (mCurrentDecoderManifestID s) (mCollectionSchemeList s)
    (mDecoderManifest s) (mProcessCollectionScheme s) (mProcessDecoderManifest s)
    (mSchemaPersistency s) (mCheckinSender s)
    (mCollectionSchemeListChangeListeners s)
    (mCustomSignalDecoderFormatMapChangeListeners s) (collectionSchemeError s).

Definition incrementError (s : State) : State :=
  mkState (mEnabledCollectionSchemeMap s) (mIdleCollectionSchemeMap s) (mTimeLine s)
    (mCurrentDecoderManifestID s) (mCollectionSchemeList s)
    (mDecoderManifest s) (mProcessCollectionScheme s) (mProcessDecoderManifest s)
    (mSchemaPersistency s) (mCheckinSender s)
    (mCollectionSchemeListChangeListeners s)
    (mCustomSignalDecoderFormatMapChangeListeners s) (S (collectionSchemeError s)).

Definition setProcessFlags (pcs pdm : bool) (s : State) : State :=
  mkState (mEnabledCollectionSchemeMap s) (mIdleCollectionSchemeMap s) (mTimeLine s)
    (mCurrentDecoderManifestID s) (mCollectionSchemeList s)
    (mDecoderManifest s) pcs pdm
    (mSchemaPersistency s) (mCheckinSender s)
    (mCollectionSchemeListChangeListeners s)
    (mCustomSignalDecoderFormatMapChangeListeners s) (collectionSchemeError s).

Definition setPersistency (p : Persistency) (s : State) : State :=
  mkState (mEnabledCollectionSchemeMap s) (mIdleCollectionSchemeMap s) (mTimeLine s)
    (mCurrentDecoderManifestID s) (mCollectionSchemeList s)
    (mDecoderManifest s) (mProcessCollectionScheme s) (mProcessDecoderManifest s)
    p (mCheckinSender s)
    (mCollectionSchemeListChangeListeners s)
    (mCustomSignalDecoderFormatMapChangeListeners s) (collectionSchemeError s).

(** [store( DataType::DECODER_MANIFEST )] *)
Definition storeDecoderManifest (s : State) : State :=
  setPersistency
    (mkPersistency (mDecoderManifest s)
       (persistedCollectionSchemeList (mSchemaPersistency s))) s.

(** [store( DataType::COLLECTION_SCHEME_LIST )] *)
Definition storeCollectionSchemeList (s : State) : State :=
  setPersistency
    (mkPersistency (persistedDecoderManifest (mSchemaPersistency s))
       (mCollectionSchemeList s)) s.

Definition keys (m : SchemeMap) : list SyncID := (map_to_list m).*1.
Definition values (m : SchemeMap) : list ICollectionScheme := (map_to_list m).*2.

(** [updateCheckinDocuments] (built without [FWE_FEATURE_LAST_KNOWN_STATE],
    the default of the build). *)
Definition checkinMsg (s : State) : list SyncID :=
  keys (mEnabledCollectionSchemeMap s) ++ keys (mIdleCollectionSchemeMap s) ++
  (if bool_decide (mCurrentDecoderManifestID s = EmptyString) then []
   else [mCurrentDecoderManifestID s]).

Definition updateCheckinDocuments (s : State) : State :=
  mkState (mEnabledCollectionSchemeMap s) (mIdleCollectionSchemeMap s) (mTimeLine s)
    (mCurrentDecoderManifestID s) (mCollectionSchemeList s)
    (mDecoderManifest s) (mProcessCollectionScheme s) (mProcessDecoderManifest s)
    (mSchemaPersistency s) (mCheckinSender s ++ [checkinMsg s])
    (mCollectionSchemeListChangeListeners s)
    (mCustomSignalDecoderFormatMapChangeListeners s) (collectionSchemeError s).

Definition isCollectionSchemeLoaded (s : State) : bool :=
  negb (bool_decide (mEnabledCollectionSchemeMap s = ∅)) ||
  negb (bool_decide (mIdleCollectionSchemeMap s = ∅)).

(** [processDecoderManifest] *)
Definition processDecoderManifest (s : State) : State * bool :=
  match mDecoderManifest s with
  | None => (incrementError s, false)
  | Some dm =>
    if negb (buildManifest dm) then (incrementError s, false)
    else if bool_decide (getID dm = mCurrentDecoderManifestID s) then (s, false)
    else
      let s1 :=
        mkState (mEnabledCollectionSchemeMap s) (mIdleCollectionSchemeMap s) (mTimeLine s)
          (getID dm) (mCollectionSchemeList s)
          (mDecoderManifest s) (mProcessCollectionScheme s) (mProcessDecoderManifest s)
          (mSchemaPersistency s) (mCheckinSender s)
          (mCollectionSchemeListChangeListeners s)
          (mCustomSignalDecoderFormatMapChangeListeners s) (collectionSchemeError s) in
      let s2 := storeDecoderManifest s1 in
      (mkState (mEnabledCollectionSchemeMap s2) (mIdleCollectionSchemeMap s2) (mTimeLine s2)
         (mCurrentDecoderManifestID s2) (mCollectionSchemeList s2)
         (mDecoderManifest s2) (mProcessCollectionScheme s2) (mProcessDecoderManifest s2)
         (mSchemaPersistency s2) (mCheckinSender s2)
         (mCollectionSchemeListChangeListeners s2)
         (mCustomSignalDecoderFormatMapChangeListeners s2 ++ [mCurrentDecoderManifestID s2])
         (collectionSchemeError s2), true)
  end.

(** [updateAvailable]: an input is [Some] when its mailbox was flagged
    available and holds a document; the document is then taken over and
    flagged for processing. *)
Definition updateAvailable (mCollectionSchemeListInput : option ICollectionSchemeList)
    (mDecoderManifestInput : option IDecoderManifest) (s : State) : State :=
  mkState (mEnabledCollectionSchemeMap s) (mIdleCollectionSchemeMap s) (mTimeLine s)
    (mCurrentDecoderManifestID s)
    (match mCollectionSchemeListInput with
     | Some l => Some l
     | None => mCollectionSchemeList s
     end)
    (match mDecoderManifestInput with
     | Some dm => Some dm
     | None => mDecoderManifest s
     end)
    (match mCollectionSchemeListInput with
     | Some _ => true
     | None => mProcessCollectionScheme s
     end)
    (match mDecoderManifestInput with
     | Some _ => true
     | None => mProcessDecoderManifest s
     end)
    (mSchemaPersistency s) (mCheckinSender s)
    (mCollectionSchemeListChangeListeners s)
    (mCustomSignalDecoderFormatMapChangeListeners s) (collectionSchemeError s).

(** The three data a pass over the scheme list threads through its loop. *)
Record Maps := mkMaps {
  enabled : SchemeMap;
  idle : SchemeMap;
  timeLine : list TimeData
}.

Definition mapsOf (s : State) : Maps :=
  mkMaps (mEnabledCollectionSchemeMap s) (mIdleCollectionSchemeMap s) (mTimeLine s).

Definition withMaps (m : Maps) (s : State) : State :=
  setMaps (enabled m) (idle m) (timeLine m) s.

(** Body of the [for] loop of [rebuildMapsandTimeLine]. *)
Definition rebuildScheme (currTime : Timestamp) (acc : Maps * bool)
    (collectionScheme : ICollectionScheme) : Maps * bool :=
  let '(m, ret) := acc in
  let startTime := getStartTime collectionScheme in
  let stopTime := getExpiryTime collectionScheme in
  let id := getCollectionSchemeID collectionScheme in
  if currTime <? startTime then
    (mkMaps (enabled m) (<[id := collectionScheme]> (idle m))
       (push (mkTimeData stopTime id) (push (mkTimeData startTime id) (timeLine m))), ret)
  else if currTime <? stopTime then
    (mkMaps (<[id := collectionScheme]> (enabled m)) (idle m)
       (push (mkTimeData stopTime id) (timeLine m)), true)
  else (m, ret).

(** [rebuildMapsandTimeLine] *)
Definition rebuildMapsandTimeLine (currTime : Timestamp) (s : State) : State * bool :=
  match mCollectionSchemeList s with
  | None => (s, false)
  | Some l =>
    let '(m, ret) :=
      fold_left (rebuildScheme currTime) (getCollectionSchemes l) (mapsOf s, false) in
    (withMaps m s, ret)
  end.

(** Body of the [for] loop of [updateMapsandTimeLine]; [newCollectionSchemeIDs]
    is threaded with the maps and the result flag. *)
Definition updateScheme (currTime : Timestamp) (acc : Maps * bool * gset string)
    (collectionScheme : ICollectionScheme) : Maps * bool * gset string :=
  let '(m, ret, newCollectionSchemeIDs) := acc in
  let startTime := getStartTime collectionScheme in
  let stopTime := getExpiryTime collectionScheme in
  let id := getCollectionSchemeID collectionScheme in
  let newCollectionSchemeIDs := {[id]} ∪ newCollectionSchemeIDs in
  match enabled m !! id with
  | Some currCollectionScheme =>
    (* found in the Enabled map: check the stop time only *)
    if stopTime <=? currTime then
      (mkMaps (delete id (enabled m)) (idle m) (timeLine m), true, newCollectionSchemeIDs)
    else
      let m1 :=
        if bool_decide (stopTime ≠ getExpiryTime currCollectionScheme) then
          mkMaps (<[id := collectionScheme]> (enabled m)) (idle m)
            (push (mkTimeData stopTime id) (timeLine m))
        else m in
      if bool_decide (collectionScheme ≠ currCollectionScheme) then
        (mkMaps (<[id := collectionScheme]> (enabled m1)) (idle m1) (timeLine m1),
         true, newCollectionSchemeIDs)
      else (m1, ret, newCollectionSchemeIDs)
  | None =>
    match idle m !! id with
    | Some currCollectionScheme =>
      (* found in the Idle map: check both start and stop time *)
      if (startTime <=? currTime) && (currTime <? stopTime) then
        (mkMaps (<[id := collectionScheme]> (enabled m)) (delete id (idle m))
           (push (mkTimeData stopTime id) (timeLine m)), true, newCollectionSchemeIDs)
      else if (currTime <? startTime) &&
              (bool_decide (startTime ≠ getStartTime currCollectionScheme) ||
               bool_decide (stopTime ≠ getExpiryTime currCollectionScheme)) then
        (mkMaps (enabled m) (<[id := collectionScheme]> (idle m))
           (push (mkTimeData stopTime id) (push (mkTimeData startTime id) (timeLine m))),
         ret, newCollectionSchemeIDs)
      else
        (mkMaps (enabled m) (<[id := collectionScheme]> (idle m)) (timeLine m),
         ret, newCollectionSchemeIDs)
    | None =>
      (* a new scheme *)
      if (startTime <=? currTime) && (currTime <? stopTime) then
        (mkMaps (<[id := collectionScheme]> (enabled m)) (idle m)
           (push (mkTimeData stopTime id) (timeLine m)), true, newCollectionSchemeIDs)
      else if currTime <? startTime then
        (mkMaps (enabled m) (<[id := collectionScheme]> (idle m))
           (push (mkTimeData stopTime id) (push (mkTimeData startTime id) (timeLine m))),
         ret, newCollectionSchemeIDs)
      else (m, ret, newCollectionSchemeIDs)
    end
  end.

(** The two [while] loops that erase what is missing from the new list. *)
Definition keepListed (newCollectionSchemeIDs : gset string) (m : SchemeMap) : SchemeMap :=
  filter (λ kv, kv.1 ∈ newCollectionSchemeIDs) m.

Definition anyMissing (newCollectionSchemeIDs : gset string) (m : SchemeMap) : bool :=
  negb (forallb (λ k, bool_decide (k ∈ newCollectionSchemeIDs)) (keys m)).

(** [updateMapsandTimeLine] *)
Definition updateMapsandTimeLine (currTime : Timestamp) (s : State) : State * bool :=
  match mCollectionSchemeList s with
  | None => (s, false)
  | Some l =>
    let '(m, ret, newCollectionSchemeIDs) :=
      fold_left (updateScheme currTime) (getCollectionSchemes l) (mapsOf s, false, ∅) in
    let idle' := keepListed newCollectionSchemeIDs (idle m) in
    let enabled' := keepListed newCollectionSchemeIDs (enabled m) in
    let ret := if anyMissing newCollectionSchemeIDs (enabled m) then true else ret in
    (withMaps (mkMaps enabled' idle' (timeLine m)) s, ret)
  end.

(** [processCollectionScheme] *)
Definition processCollectionScheme (currTime : Timestamp) (s : State) : State * bool :=
  match mCollectionSchemeList s with
  | None => (incrementError s, false)
  | Some l =>
    if negb (buildSchemes l) then (incrementError s, false)
    else
      let s1 := storeCollectionSchemeList s in
      if isCollectionSchemeLoaded s1 then updateMapsandTimeLine currTime s1
      else rebuildMapsandTimeLine currTime s1
  end.

(** How one turn of the [while] loop of [checkTimeLine] ends: the top entry
    was popped (by [continue] or at the end of the body), or the loop was left
    by [break] with the entry still on the heap. *)
Inductive LoopExit := Popped | Break.

(** Body of the [while] loop of [checkTimeLine] for the entry on top of the
    heap.  Returns the two maps, whether [ret = true] was executed, and how
    the turn ended. *)
Definition checkTimeLineEntry (currTime : Timestamp) (topPair : TimeData)
    (en idl : SchemeMap) : SchemeMap * SchemeMap * bool * LoopExit :=
  let topCollectionSchemeID := id topPair in
  let topTime := time topPair in
  let found :=
    match en !! topCollectionSchemeID with
    | Some c => Some (true, c)
    | None =>
      match idl !! topCollectionSchemeID with
      | Some c => Some (false, c)
      | None => None
      end
    end in
  match found with
  | None => (en, idl, false, Popped)
  | Some (foundInEnabled, currCollectionScheme) =>
    let timeOfInterest :=
      if foundInEnabled then getExpiryTime currCollectionScheme
      else getStartTime currCollectionScheme in
    if bool_decide (timeOfInterest ≠ topTime) then (en, idl, false, Popped)
    else if topTime <=? currTime then
      if negb foundInEnabled then
        (<[topCollectionSchemeID := currCollectionScheme]> en,
         delete topCollectionSchemeID idl, true, Popped)
      else (delete topCollectionSchemeID en, idl, true, Popped)
    else (en, idl, false, Break)
  end.

Fixpoint checkTimeLineLoop (currTime : Timestamp) (tl : list TimeData)
    (en idl : SchemeMap) (ret : bool) : Maps * bool :=
  match tl with
  | [] => (mkMaps en idl [], ret)
  | topPair :: rest =>
    match checkTimeLineEntry currTime topPair en idl with
    | (en', idl', flipped, Popped) =>
      checkTimeLineLoop currTime rest en' idl' (if flipped then true else ret)
    | (en', idl', flipped, Break) => (mkMaps en' idl' tl, if flipped then true else ret)
    end
  end.

(** [checkTimeLine] *)
Definition checkTimeLine (currTime : Timestamp) (s : State) : State * bool :=
  match mTimeLine s with
  | [] => (s, false)
  | topPair :: _ =>
    if currTime <? time topPair then (s, false)
    else
      let '(m, ret) :=
        checkTimeLineLoop currTime (mTimeLine s)
          (mEnabledCollectionSchemeMap s) (mIdleCollectionSchemeMap s) false in
      (withMaps m s, ret)
  end.

(** One pop of [checkTimeLine]: the entry taken from the heap and the two maps
    just before and just after the turn of the loop that popped it. *)
Record PopRecord := mkPop {
  poppedEntry : TimeData;
  enabledBefore : SchemeMap;
  idleBefore : SchemeMap;
  enabledAfter : SchemeMap;
  idleAfter : SchemeMap
}.

(** The pops of a run of the loop, in order; it follows [checkTimeLineLoop]
    turn by turn. *)
Fixpoint loopPops (currTime : Timestamp) (tl : list TimeData)
    (en idl : SchemeMap) : list PopRecord :=
  match tl with
  | [] => []
  | topPair :: rest =>
    match checkTimeLineEntry currTime topPair en idl with
    | (en', idl', _, Popped) =>
      mkPop topPair en idl en' idl' :: loopPops currTime rest en' idl'
    | (_, _, _, Break) => []
    end
  end.

Definition checkTimeLinePops (currTime : Timestamp) (s : State) : list PopRecord :=
  match mTimeLine s with
  | [] => []
  | topPair :: _ =>
    if currTime <? time topPair then []
    else loopPops currTime (mTimeLine s)
           (mEnabledCollectionSchemeMap s) (mIdleCollectionSchemeMap s)
  end.

(** [isCollectionSchemesInSyncWithDm] *)
Definition isCollectionSchemesInSyncWithDm (s : State) : bool :=
  forallb (λ c, bool_decide (getDecoderManifestID c = mCurrentDecoderManifestID s))
    (values (mEnabledCollectionSchemeMap s)) &&
  forallb (λ c, bool_decide (getDecoderManifestID c = mCurrentDecoderManifestID s))
    (values (mIdleCollectionSchemeMap s)).

(** The [ActiveCollectionSchemes] that [updateActiveCollectionSchemeListeners]
    hands to the listeners. *)
Definition activeCollectionSchemesOutput (s : State) : list ICollectionScheme :=
  if isCollectionSchemesInSyncWithDm s then values (mEnabledCollectionSchemeMap s) else [].

(** [updateActiveCollectionSchemeListeners] *)
Definition updateActiveCollectionSchemeListeners (s : State) : State :=
  mkState (mEnabledCollectionSchemeMap s) (mIdleCollectionSchemeMap s) (mTimeLine s)
    (mCurrentDecoderManifestID s) (mCollectionSchemeList s)
    (mDecoderManifest s) (mProcessCollectionScheme s) (mProcessDecoderManifest s)
    (mSchemaPersistency s) (mCheckinSender s)
    (mCollectionSchemeListChangeListeners s ++ [activeCollectionSchemesOutput s])
    (mCustomSignalDecoderFormatMapChangeListeners s) (collectionSchemeError s).

(** The flags one turn of the [while] loop of [doWork] computes. *)
Record PassFlags := mkPassFlags {
  decoderManifestChanged : bool;
  enabledCollectionSchemeMapChanged : bool
}.

(** One turn of the [while] loop of [doWork], from its top to the update of the
    listeners.  [updateTime] is the clock read by [processCollectionScheme],
    [checkTime] the one read before [checkTimeLine].  The extraction of the
    matrices and of the decoder dictionary that follows is defined in files
    that are not part of the sources; it and the wait that ends the turn are
    left out. *)
Definition doWorkPass (updateTime checkTime : Timestamp)
    (initialCheckinDocumentsUpdate : bool) (s : State) : State * PassFlags :=
  let '(s1, dmChanged) :=
    if mProcessDecoderManifest s then
      processDecoderManifest (setProcessFlags (mProcessCollectionScheme s) false s)
    else (s, false) in
  let '(s2, csChanged) :=
    if mProcessCollectionScheme s1 then
      processCollectionScheme updateTime
        (setProcessFlags false (mProcessDecoderManifest s1) s1)
    else (s1, false) in
  let '(s3, tlChanged) := checkTimeLine checkTime s2 in
  let enChanged := if tlChanged then true else csChanged in
  let documentsChanged := dmChanged || enChanged in
  let s4 :=
    if documentsChanged || initialCheckinDocumentsUpdate
    then updateCheckinDocuments s3 else s3 in
  let s5 :=
    if documentsChanged && (dmChanged || enChanged)
    then updateActiveCollectionSchemeListeners s4 else s4 in
  (s5, mkPassFlags dmChanged enChanged).

(** *** Vocabulary of the properties *)

(** Where a scheme stands at the time [now]. *)
Definition startsLater (now : Timestamp) (c : ICollectionScheme) : bool := now <? getStartTime c.
Definition isRunning (now : Timestamp) (c : ICollectionScheme) : bool := (getStartTime c <=? now) && (now <? getExpiryTime c).

(** The seven ways one turn of the loop of [checkTimeLine] can go, for the
    entry [top] and the maps [en] and [idl] it meets. *)
Inductive EntryOutcome (now : Timestamp) (top : TimeData) (en idl : gmap string ICollectionScheme)
  : gmap string ICollectionScheme → gmap string ICollectionScheme → bool → LoopExit → Prop :=
| NotFound :
    en !! id top = None → idl !! id top = None →
    EntryOutcome now top en idl en idl false Popped
| StaleExpiry c :
    en !! id top = Some c → getExpiryTime c ≠ time top →
    EntryOutcome now top en idl en idl false Popped
| Disable c :
    en !! id top = Some c → getExpiryTime c = time top → time top ≤ now →
    EntryOutcome now top en idl (delete (id top) en) idl true Popped
| NextExpiry c :
    en !! id top = Some c → getExpiryTime c = time top → now < time top →
    EntryOutcome now top en idl en idl false Break
| StaleStart c :
    en !! id top = None → idl !! id top = Some c → getStartTime c ≠ time top →
    EntryOutcome now top en idl en idl false Popped
| Enable c :
    en !! id top = None → idl !! id top = Some c → getStartTime c = time top →
    time top ≤ now →
    EntryOutcome now top en idl (<[id top := c]> en) (delete (id top) idl) true Popped
| NextStart c :
    en !! id top = None → idl !! id top = Some c → getStartTime c = time top →
    now < time top →
    EntryOutcome now top en idl en idl false Break.

(** The records [pops] are consecutive turns that lead from the maps [en] and
    [idl] to the maps [en'] and [idl']. *)
Fixpoint chained (en idl : SchemeMap) (pops : list PopRecord) (en' idl' : SchemeMap)
    : Prop :=
  match pops with
  | [] => en' = en ∧ idl' = idl
  | p :: rest =>
    enabledBefore p = en ∧ idleBefore p = idl ∧
    chained (enabledAfter p) (idleAfter p) rest en' idl'
  end.


(** What a step leaves untouched of the decoder manifest: the active ID, the
    persisted manifest and the pending one. *)
Definition keepsManifest (s s' : State) : Prop :=
  mCurrentDecoderManifestID s' = mCurrentDecoderManifestID s ∧
  persistedDecoderManifest (mSchemaPersistency s') =
    persistedDecoderManifest (mSchemaPersistency s) ∧
  mDecoderManifest s' = mDecoderManifest s.

(** Every scheme of the two maps is stored under its own ID. *)
Definition keyedByID (m : Maps) : Prop :=
  map_Forall (λ k c, getCollectionSchemeID c = k) (enabled m) ∧
  map_Forall (λ k c, getCollectionSchemeID c = k) (idle m).

(** No ID is in the Enabled and in the Idle map at once. *)
Definition disjointMaps (m : Maps) : Prop :=
  ∀ k, enabled m !! k = None ∨ idle m !! k = None.

(** Only documents that built are persisted. *)
Definition persistedBuilt (s : State) : Prop :=
  (∀ dm, persistedDecoderManifest (mSchemaPersistency s) = Some dm →
         buildManifest dm = true) ∧
  (∀ csl, persistedCollectionSchemeList (mSchemaPersistency s) = Some csl →
          buildSchemes csl = true).

End CollectionSchemeManager.

(* ===================================================================== *)
(** ** OBDOverCANModule.cpp                                               *)
(* ===================================================================== *)
Module OBDOverCANModule.

(** [uint32_t] arithmetic wraps modulo 2^32. *)
Definition wrap32 (z : Z) : Z := z mod 2 ^ 32.

(** Modelled from the spec: [OBDOverCANModule.h] and the [ECUID] enumeration
    are not part of the sources.  The values are the ones of section 4.3 of
    the spec, which the comments of [getTxIDByRxID] and [autoDetectECUs]
    repeat. *)
Definition MASKING_GET_BYTE : Z := 0xFF.
Definition MASKING_SHIFT_BITS : Z := 8.
Definition MASKING_TEMPLATE_TX_ID : Z := 0x18DA00F1.
Definition MASKING_REMOVE_BYTE : Z := 0x8.
Definition LOWEST_ECU_RX_ID : Z := 0x7E8.
Definition HIGHEST_ECU_RX_ID : Z := 0x7EF.
Definition LOWEST_ECU_EXTENDED_RX_ID : Z := 0x18DAF100.
Definition HIGHEST_ECU_EXTENDED_RX_ID : Z := 0x18DAF1FF.

(** [CAN_EFF_MASK] of [linux/can.h]: the 29 bits of an extended identifier. *)
Definition CAN_EFF_MASK : Z := 0x1FFFFFFF.

(** [getTxIDByRxID] *)
Definition getTxIDByRxID (isExtendedID : bool) (rxId : Z) : Z :=
  if isExtendedID
  then Z.lor (wrap32 (Z.shiftl (Z.land rxId MASKING_GET_BYTE) MASKING_SHIFT_BITS))
             MASKING_TEMPLATE_TX_ID
  else wrap32 (rxId - MASKING_REMOVE_BYTE).

(** The identifier [autoDetectECUs] compares: [frame.can_id], masked when the
    request was sent with extended addressing. *)
Definition frameCANId (isExtendedID : bool) (can_id : Z) : Z :=
  if isExtendedID then Z.land can_id CAN_EFF_MASK else can_id.

Definition smallestCANId (isExtendedID : bool) : Z :=
  if isExtendedID then LOWEST_ECU_EXTENDED_RX_ID else LOWEST_ECU_RX_ID.

Definition biggestCANId (isExtendedID : bool) : Z :=
  if isExtendedID then HIGHEST_ECU_EXTENDED_RX_ID else HIGHEST_ECU_RX_ID.

(** The test "Check if CAN ID is valid" of [autoDetectECUs]. *)
Definition isValidECUResponse (isExtendedID : bool) (can_id : Z) : bool :=
  (smallestCANId isExtendedID <=? frameCANId isExtendedID can_id) &&
  (frameCANId isExtendedID can_id <=? biggestCANId isExtendedID).

(** What one turn of the receive loop of [autoDetectECUs] meets. *)
Inductive DetectTurn :=
| StopRequested                 (* [shouldStop()] *)
| WaitingTimeElapsed            (* more than [MAX_WAITING_MS] since the request *)
| PollError                     (* [poll] < 0 *)
| PollTimeout                   (* [poll] = 0 *)
| RecvFailed                    (* [recv] < 0 *)
| Received (can_id : Z).        (* a frame with this [can_id] *)

(** The identifiers of the frames the receive loop gets to read: those
    received before the loop ends. *)
Fixpoint framesReceived (turns : list DetectTurn) : list Z :=
  match turns with
  | Received can_id :: rest => can_id :: framesReceived rest
  | _ => []
  end.

(** The receive loop of [autoDetectECUs]: [Some r] when the loop is left
    normally with the responses [r], [None] for the early [return false]
    (the vector handed in by reference keeps what was pushed, which is the
    second component). *)
Fixpoint receiveLoop (isExtendedID : bool) (turns : list DetectTurn)
    (canIDResponses : list Z) : bool * list Z :=
  match turns with
  | [] => (true, canIDResponses)
  | StopRequested :: _ => (true, canIDResponses)
  | WaitingTimeElapsed :: _ => (true, canIDResponses)
  | PollError :: _ => (false, canIDResponses)
  | PollTimeout :: _ => (true, canIDResponses)
  | RecvFailed :: _ => (false, canIDResponses)
  | Received can_id :: rest =>
    receiveLoop isExtendedID rest
      (if isValidECUResponse isExtendedID can_id
       then canIDResponses ++ [frameCANId isExtendedID can_id]
       else canIDResponses)
  end.

(** [autoDetectECUs]: [requestSent] is false when opening, binding or writing
    to the raw socket failed; [closed] is the outcome of the final [close]. *)
Definition autoDetectECUs (requestSent closed : bool) (isExtendedID : bool)
    (turns : list DetectTurn) (canIDResponses : list Z) : bool * list Z :=
  if negb requestSent then (false, canIDResponses)
  else
    let '(ok, responses) := receiveLoop isExtendedID turns canIDResponses in
    if negb ok then (false, responses)
    else (closed, responses).



(** What the worker thread does that reaches the bus. *)
Inductive Action :=
| BroadcastDiscovery (isExtendedID : bool)
| RequestPIDs
| RequestDTCs.

Record Module := mkModule {
  mPIDRequestIntervalSeconds : Z;
  mDTCRequestIntervalSeconds : Z;
  (** [mThread] was created and runs [doWork] *)
  threadRunning : bool;
  mShouldStop : bool;
  mDecoderManifestAvailable : bool;
  mShouldRequestDTCs : bool
}.

(** [start]: [created] is the outcome of [mThread.create]. *)
Definition start (created : bool) (m : Module) : Module * bool :=
  let m1 :=
    mkModule (mPIDRequestIntervalSeconds m) (mDTCRequestIntervalSeconds m)
      created false false false in
  (m1, created).

(** [connect] *)
Definition connect (created : bool) (m : Module) : Module * bool :=
  if (mPIDRequestIntervalSeconds m =? 0) && (mDTCRequestIntervalSeconds m =? 0)
  then (m, true)
  else start created m.

(** What one turn of the acquisition loop of [doWork] reads. *)
Record AcquisitionTurn := mkAcquisitionTurn {
  pidTimerElapsedSeconds : Z;
  dtcTimerElapsedSeconds : Z;
  decoderDictionaryEmpty : bool;
  shouldRequestDTCs : bool
}.

(** What one turn of the first loop of [doWork] meets: for the broadcast with
    11-bit and with 29-bit identifiers, whether the request went out on the
    raw socket, and the turns of the receive loop. *)
Record DetectionAttempt := mkDetectionAttempt {
  requestSent11 : bool;
  turns11 : list DetectTurn;
  requestSent29 : bool;
  turns29 : list DetectTurn
}.

(** One turn of the first loop of [doWork]: the broadcast with 11-bit
    identifiers and, when nobody answered, with 29-bit identifiers.  The
    result of [autoDetectECUs] is ignored by the source, but not the
    responses. *)
Definition detectionTurn (a : DetectionAttempt) : list Action * bool * list Z :=
  let r11 := (autoDetectECUs (requestSent11 a) true false (turns11 a) []).2 in
  let sent11 := if requestSent11 a then [BroadcastDiscovery false] else [] in
  match r11 with
  | [] =>
    let r29 := (autoDetectECUs (requestSent29 a) true true (turns29 a) []).2 in
    let sent29 := if requestSent29 a then [BroadcastDiscovery true] else [] in
    (sent11 ++ sent29, true, r29)
  | _ => (sent11, false, r11)
  end.

(** One turn of the second loop of [doWork]. *)
Definition acquisitionTurn (m : Module) (t : AcquisitionTurn) : list Action :=
  (if (0 <? mPIDRequestIntervalSeconds m) &&
      (mPIDRequestIntervalSeconds m <=? pidTimerElapsedSeconds t) &&
      negb (decoderDictionaryEmpty t)
   then [RequestPIDs] else []) ++
  (if (0 <? mDTCRequestIntervalSeconds m) &&
      (mDTCRequestIntervalSeconds m <=? dtcTimerElapsedSeconds t) &&
      shouldRequestDTCs t
   then [RequestDTCs] else []).

(** [doWork]: the detection turns until ECUs answer, then the acquisition
    turns.  (The outcome of [initECUs], fatal when an ECU cannot be set up, is
    not modelled.) *)
Fixpoint doWork (m : Module) (detection : list DetectionAttempt)
    (acquisition : list AcquisitionTurn) : list Action :=
  match detection with
  | [] => []
  | a :: rest =>
    let '(actions, _, responses) := detectionTurn a in
    match responses with
    | [] => actions ++ doWork m rest acquisition
    | _ => actions ++ concat (acquisitionTurn m <$> acquisition)
    end
  end.

(** What the module puts on the bus: [doWork] runs in the thread that only
    [start] creates. *)
Definition busActions (m : Module) (detection : list DetectionAttempt)
    (acquisition : list AcquisitionTurn) : list Action :=
  if threadRunning m then doWork m detection acquisition else [].

(** Modelled from the spec: [P2_TIMEOUT_DEFAULT_MS] is declared in a header
    that is not part of the sources; the spec gives "P2 = 100 ms for OBD". *)
Definition P2_TIMEOUT_DEFAULT_MS : Z := 100.

(** The inner [for] loop of [flush] for one ECU.  [ecuFlush timeLeftMs] is
    [ecu->flush( timeLeftMs )] of [OBDOverCANECU], the time the ECU needed.
    Returns the budgets handed to the ECU, in order, and the time left. *)
Fixpoint flushECU (ecuFlush : Z → Z) (count : nat) (timeLeftMs : Z) : list Z * Z :=
  match count with
  | O => ([], timeLeftMs)
  | S n =>
    let timeNeededMs := ecuFlush timeLeftMs in
    let '(budgets, remaining) :=
      flushECU ecuFlush n
        (if timeLeftMs <=? timeNeededMs then 0 else timeLeftMs - timeNeededMs) in
    (timeLeftMs :: budgets, remaining)
  end.

(** The outer [for] loop of [flush] over [mECUs], from the ECU number [index]
    on; [exceptECU] is the number of the ECU that is skipped.  Returns the
    calls of [ecu->flush], each with the number of the ECU and the budget. *)
Fixpoint flushECUs (mECUs : list (Z → Z)) (index exceptECU count : nat) (timeLeftMs : Z)
    : list (nat * Z) :=
  match mECUs with
  | [] => []
  | ecu :: rest =>
    if bool_decide (index = exceptECU)
    then flushECUs rest (S index) exceptECU count timeLeftMs
    else
      let '(budgets, remaining) := flushECU ecu count timeLeftMs in
      ((λ b, (index, b)) <$> budgets) ++
      flushECUs rest (S index) exceptECU count remaining
  end.

(** [flush] *)
Definition flush (mBroadcastRequests : bool) (mECUs : list (Z → Z)) (count : nat)
    (exceptECU : nat) : list (nat * Z) :=
  if negb mBroadcastRequests then []
  else flushECUs mECUs 0 exceptECU count P2_TIMEOUT_DEFAULT_MS.

Definition INT64_MAX : Z := 2 ^ 63 - 1.

(** [calcSleepTime]: [elapsedMs] is [timer.getElapsedMs().count()]; the
    result is the new [outputSleepTime].  ([int64_t] arithmetic; it does not
    overflow for an interval below 2^32 and a timer reading below 2^62.) *)
Definition calcSleepTime (requestIntervalSeconds elapsedMs outputSleepTime : Z) : Z :=
  if 0 <? requestIntervalSeconds then
    let sleepTime := requestIntervalSeconds * 1000 - elapsedMs in
    if sleepTime <? outputSleepTime then sleepTime else outputSleepTime
  else outputSleepTime.

(** "Wait for the next cycle" at the end of a turn of the acquisition loop of
    [doWork]: [None] when a request is overdue (a warning, no wait), or the
    [uint32_t] handed to [mWait.wait]. *)
Definition nextWait (m : Module) (pidElapsedMs dtcElapsedMs : Z) : option Z :=
  let sleepTime :=
    calcSleepTime (mDTCRequestIntervalSeconds m) dtcElapsedMs
      (calcSleepTime (mPIDRequestIntervalSeconds m) pidElapsedMs INT64_MAX) in
  if sleepTime <? 0 then None else Some (wrap32 sleepTime).

End OBDOverCANModule.

(* ===================================================================== *)
(** ** CANDataSource.cpp                                                  *)
(* ===================================================================== *)
Module CANDataSource.

(** Modelled from the spec: [CANDataSource.h] is not part of the sources; the
    spec gives the batch size, "batches of up to B = 10 frames per syscall". *)
Definition PARALLEL_RECEIVED_FRAMES_FROM_KERNEL : Z := 10.

(** A frame as [doWork] uses it: its identifier and the time stamp
    [extractTimestamp] finds for it. *)
Record Frame := mkFrame {
  can_id : Z;
  timestamp : Timestamp
}.

Inductive Errno := ENODEV | ENETDOWN | ENETUNREACH | EAGAIN.

(** The outcome of [recvmmsg]: -1 with [errno], or the frames received. *)
Inductive RecvResult :=
| RecvError (e : Errno)
| RecvFrames (frames : list Frame).

Definition nmsgs (r : RecvResult) : Z :=
  match r with
  | RecvError _ => -1
  | RecvFrames frames => Z.of_nat (length frames)
  end.

Definition framesOf (r : RecvResult) : list Frame :=
  match r with
  | RecvError _ => []
  | RecvFrames frames => frames
  end.

(** What one turn of the [while] loop of [doWork] meets. *)
Record Turn := mkTurn {
  (** [decoderDictionary == nullptr]: the thread sleeps and is woken *)
  dictionaryIsNull : bool;
  received : RecvResult;
  stopRequested : bool
}.

Record State := mkState {
  lastFrameTime : Timestamp;
  wokeUpFromSleep : bool;
  mReceivedMessages : Z;
  (** [TraceAtomicVariable::NOT_TIME_MONOTONIC_FRAMES] *)
  notTimeMonotonicFrames : Z;
  (** calls of [mConsumer.processMessage], oldest first *)
  mConsumer : list Frame
}.

Definition initialState : State := mkState 0 false 0 0 [].

(** Body of the [for] loop over the frames of a batch. *)
Definition processFrame (st : State) (f : Frame) : State :=
  if negb (wokeUpFromSleep st) then
    mkState (timestamp f) (wokeUpFromSleep st) (mReceivedMessages st + 1)
      (if timestamp f <? lastFrameTime st
       then notTimeMonotonicFrames st + 1 else notTimeMonotonicFrames st)
      (mConsumer st ++ [f])
  else st.

Definition setWokeUp (b : bool) (st : State) : State :=
  mkState (lastFrameTime st) b (mReceivedMessages st)
    (notTimeMonotonicFrames st) (mConsumer st).

(** One turn of the [while] loop of [doWork]; the boolean tells whether the
    loop goes on. *)
Definition doWorkTurn (st : State) (t : Turn) : State * bool :=
  let st1 := if dictionaryIsNull t then setWokeUp true st else st in
  match received t with
  | RecvError ENODEV => (st1, false)   (* fatal: the function returns *)
  | _ =>
    let st2 := fold_left processFrame (framesOf (received t)) st1 in
    let st3 :=
      if nmsgs (received t) <? PARALLEL_RECEIVED_FRAMES_FROM_KERNEL
      then setWokeUp false st2 else st2 in
    (st3, negb (stopRequested t))
  end.

(** [doWork] *)
Fixpoint doWorkFrom (st : State) (turns : list Turn) : State :=
  match turns with
  | [] => st
  | t :: rest =>
    let '(st', continue) := doWorkTurn st t in
    if continue then doWorkFrom st' rest else st'
  end.

Definition doWork (turns : list Turn) : State := doWorkFrom initialState turns.

(** *** Vocabulary of the properties *)



(** *** [extractTimestamp] *)

Inductive CanTimestampType :=
| POLLING_TIME
| KERNEL_SOFTWARE_TIMESTAMP
| KERNEL_HARDWARE_TIMESTAMP.

(** [uint64_t] arithmetic wraps modulo 2^64. *)
Definition wrap64 (z : Z) : Z := z mod 2 ^ 64.

Record timespec := mkTimespec { tv_sec : Z; tv_nsec : Z }.

(** A control message of a received frame: its [cmsg_type] and, of the
    [scm_timestamping] in its data, [ts[0]] and [ts[2]]. *)
Record cmsghdr := mkCmsghdr {
  cmsg_type : Z;
  ts0 : timespec;
  ts2 : timespec
}.

(** [SO_TIMESTAMPING] of the Linux headers. *)
Definition SO_TIMESTAMPING : Z := 37.

(** [tv_sec * 1000 + tv_nsec / 1000000], each operand cast to [Timestamp]. *)
Definition toMilliseconds (t : timespec) : Z :=
  wrap64 (wrap64 (wrap64 (tv_sec t) * 1000) + wrap64 (tv_nsec t) / 1000000).

(** Body of the [while] loop over the control messages. *)
Definition readHeader (mTimestampTypeToUse : CanTimestampType) (ts : Z)
    (currentHeader : cmsghdr) : Z :=
  if cmsg_type currentHeader =? SO_TIMESTAMPING then
    match mTimestampTypeToUse with
    | KERNEL_HARDWARE_TIMESTAMP => toMilliseconds (ts2 currentHeader)
    | KERNEL_SOFTWARE_TIMESTAMP => toMilliseconds (ts0 currentHeader)
    | POLLING_TIME => ts
    end
  else ts.

(** [extractTimestamp]: [msgHeader] are the control messages from
    [CMSG_FIRSTHDR] on, [systemTimeSinceEpochMs] what the clock shows. *)
Definition extractTimestamp (mTimestampTypeToUse : CanTimestampType)
    (msgHeader : list cmsghdr) (systemTimeSinceEpochMs : Z) : Z :=
  let ts :=
    match mTimestampTypeToUse with
    | POLLING_TIME => 0
    | _ => fold_left (readHeader mTimestampTypeToUse) msgHeader 0
    end in
  if ts =? 0 then systemTimeSinceEpochMs else ts.

(** How many frames of a batch carry a time stamp below the one before them,
    [last] being the time stamp before the first. *)
Fixpoint descents (last : Timestamp) (frames : list Frame) : Z :=
  match frames with
  | [] => 0
  | f :: rest =>
    (if timestamp f <? last then 1 else 0) + descents (timestamp f) rest
  end.

(** The time stamp of the last frame of a batch, [last] for an empty one. *)
Definition lastTimestamp (last : Timestamp) (frames : list Frame) : Timestamp :=
  foldl (λ _ f, timestamp f) last frames.

End CANDataSource.

(* ===================================================================== *)
(** ** DataSenderManagerWorkerThread.cpp                                  *)
(* ===================================================================== *)
Module DataSenderManagerWorkerThread.

Definition UINT64_MAX : Z := 2 ^ 64 - 1.

(** What the worker asks of its [DataSenderManager]. *)
Inductive Call :=
| ProcessData (dataToSend : Z)
| CheckAndSendRetrievedData.

#[global] Instance Call_eq_dec : EqDecision Call.
Proof. solve_decision. Defined.

(** What one turn of the [while] loop of [doWork] meets.  The two clocks are
    the monotonic time in milliseconds when the wait is computed and when the
    retry condition is tested. *)
Record Turn := mkTurn {
  clockAtWait : Z;
  clockAtCheck : Z;
  (** what [consumeAll] finds in the queues, queue by queue *)
  queued : list (list Z);
  (** [mConnectivityModule.isAlive()] *)
  isAlive : bool
}.

Record State := mkState {
  uploadedPersistedDataOnce : bool;
  (** the time of the last [mRetrySendingPersistedDataTimer.reset()] *)
  mRetrySendingPersistedDataTimer : Z;
  (** calls of the [DataSenderManager], oldest first *)
  mDataSenderManager : list Call;
  (** the waits asked of [mWait]: [Some ms], or [None] to wait for a signal *)
  mWait : list (option Z)
}.

(** The timer starts when the worker is constructed, at [startClock]. *)
Definition initialState (startClock : Z) : State := mkState false startClock [] [].

Definition getElapsedMs (st : State) (clock : Z) : Z :=
  clock - mRetrySendingPersistedDataTimer st.

(** The wait at the top of the loop. *)
Definition timeToWait (mPersistencyUploadRetryIntervalMs : Z) (st : State) (clock : Z)
    : option Z :=
  let minTimeToWaitMs :=
    if 0 <? mPersistencyUploadRetryIntervalMs then
      Z.min UINT64_MAX
        (mPersistencyUploadRetryIntervalMs -
         Z.min (getElapsedMs st clock) mPersistencyUploadRetryIntervalMs)
    else UINT64_MAX in
  if minTimeToWaitMs <? UINT64_MAX then Some (minTimeToWaitMs mod 2 ^ 32) else None.

(** The test that guards the retry. *)
Definition retryDue (mPersistencyUploadRetryIntervalMs : Z) (st : State) (t : Turn) : bool :=
  negb (uploadedPersistedDataOnce st) ||
  ((0 <? mPersistencyUploadRetryIntervalMs) &&
   (mPersistencyUploadRetryIntervalMs <=? getElapsedMs st (clockAtCheck t))).

(** One turn of the [while] loop of [doWork]. *)
Definition doWorkTurn (mPersistencyUploadRetryIntervalMs : Z) (st : State) (t : Turn)
    : State :=
  let wait := timeToWait mPersistencyUploadRetryIntervalMs st (clockAtWait t) in
  let calls := mDataSenderManager st ++ (ProcessData <$> concat (queued t)) in
  if retryDue mPersistencyUploadRetryIntervalMs st t then
    if isAlive t then
      mkState true (clockAtCheck t) (calls ++ [CheckAndSendRetrievedData]) (mWait st ++ [wait])
    else
      mkState (uploadedPersistedDataOnce st) (clockAtCheck t) calls (mWait st ++ [wait])
  else
    mkState (uploadedPersistedDataOnce st) (mRetrySendingPersistedDataTimer st) calls
      (mWait st ++ [wait]).

(** The calls one turn of the loop adds. *)
Definition turnCalls (mPersistencyUploadRetryIntervalMs : Z) (st : State) (t : Turn)
    : list Call :=
  drop (length (mDataSenderManager st))
    (mDataSenderManager (doWorkTurn mPersistencyUploadRetryIntervalMs st t)).

(** [doWork] over the turns the loop makes before [shouldStop()]. *)
Definition doWork (mPersistencyUploadRetryIntervalMs : Z) (startClock : Z)
    (turns : list Turn) : State :=
  fold_left (doWorkTurn mPersistencyUploadRetryIntervalMs) turns (initialState startClock).

(** *** Vocabulary of the properties *)

(** How often the worker asked for the stored payloads among some calls. *)
Definition retrievals (calls : list Call) : nat :=
  length (filter (λ c, c = CheckAndSendRetrievedData) calls).

(** The data the worker handed to [processData], in order. *)
Definition processedData (calls : list Call) : list Z :=
  omap (λ c, match c with ProcessData d => Some d | CheckAndSendRetrievedData => None end)
    calls.

End DataSenderManagerWorkerThread.

(* ===================================================================== *)
(** ** MyBlobDataSource.cpp                                               *)
(* ===================================================================== *)
Module MyBlobDataSource.

(** The conversion to [uint8_t] that [push_back] on a [std::vector<uint8_t>]
    applies. *)
Definition toByte (z : Z) : Z := z mod 256.

(** The example blob of [pushData], "Hello world!". *)
Definition blob : list Z := [72; 101; 108; 108; 111; 32; 119; 111; 114; 108; 100; 33].

(** The CDR message [pushData] builds for a blob: the header, the size of the
    blob as UINT32 with the least significant byte first, and the blob. *)
Definition cdrMessage (blob : list Z) : list Z :=
  let size := Z.of_nat (length blob) in
  [0; 1; 0; 0] ++
  [toByte (Z.land size 0xFF);
   toByte (Z.land (Z.shiftr size 8) 0xFF);
   toByte (Z.land (Z.shiftr size 16) 0xFF);
   toByte (Z.land (Z.shiftr size 24) 0xFF)] ++
  blob.

(** Reading a UINT32 from four bytes, least significant byte first.  The
    program has no reader of its messages; this one and [readCdrMessage]
    follow the format the comments of [pushData] describe (header, UINT32
    size, byte array) and serve to state that a message is well formed. *)
Definition readUint32LE (bytes : list Z) : option Z :=
  match bytes with
  | [b0; b1; b2; b3] => Some (b0 + 256 * b1 + 65536 * b2 + 16777216 * b3)
  | _ => None
  end.

(** Reading the byte array back from a CDR message of this format: the
    header, the size, and as many bytes as the size says. *)
Definition readCdrMessage (cdr : list Z) : option (list Z) :=
  if bool_decide (take 4 cdr = [0; 1; 0; 0]) then
    match readUint32LE (take 4 (drop 4 cdr)) with
    | Some size =>
      if size =? Z.of_nat (length (drop 8 cdr)) then Some (drop 8 cdr) else None
    | None => None
    end
  else None.

End MyBlobDataSource.

(* ===================================================================== *)
(** ** Sample data used by the examples below                             *)
(* ===================================================================== *)
Module Examples.
Import CollectionSchemeManager.

(** Example data: three schemes seen at time 50, one not yet started, one
    running and one expired. *)
Definition schemeA : ICollectionScheme := mkScheme "A" "DM1" 100 200 0.
Definition schemeB : ICollectionScheme := mkScheme "B" "DM1" 0 200 0.
Definition schemeC : ICollectionScheme := mkScheme "C" "DM1" 0 40 0.

Definition emptyState (l : option ICollectionSchemeList) : State :=
  mkState ∅ ∅ [] "" l None false false (mkPersistency None None) [] [] [] 0.

Definition stateABC : State :=
  emptyState (Some (mkSchemeList true [schemeA; schemeB; schemeC])).

(** A scheme list with the single scheme A, loaded at time 50 into the empty
    manager: A waits in the Idle map for its start at 100. *)
Definition stateIdleA : State :=
  (rebuildMapsandTimeLine 50 (emptyState (Some (mkSchemeList true [schemeA])))).1.

(** An update of A that moves its start time to 60. *)
Definition schemeA60 : ICollectionScheme := mkScheme "A" "DM1" 60 200 0.

(** The state in which the update has arrived ([updateAvailable]). *)
Definition stateIdleAUpdated : State :=
  updateAvailable (Some (mkSchemeList true [schemeA60])) None stateIdleA.

(** The pop of the start entry of A at time 100. *)
Definition popStartA : PopRecord :=
  mkPop (mkTimeData 100 "A") ∅ {["A" := schemeA]} {["A" := schemeA]} ∅.

(** A running scheme that refers to another decoder manifest. *)
Definition schemeD : ICollectionScheme := mkScheme "D" "DM2" 0 200 0.

(** The manager at start-up with the manifest DM1 and the list of B and D in
    its mailboxes. *)
Definition stateStartBD : State :=
  updateAvailable (Some (mkSchemeList true [schemeB; schemeD]))
    (Some (mkManifest true "DM1")) (emptyState None).

(** The manager at start-up with the list of B in its mailbox and no decoder
    manifest. *)
Definition stateStartB : State :=
  updateAvailable (Some (mkSchemeList true [schemeB])) None (emptyState None).


Definition modulePID1 : OBDOverCANModule.Module :=
  OBDOverCANModule.mkModule 1 0 false false false false.

(** Batches of the CAN reader: a full batch of ten frames and the frames of
    two short ones. *)
Definition fullBatch : list CANDataSource.Frame :=
  (λ i, CANDataSource.mkFrame 0x100 (1000 + i)) <$> [0; 1; 2; 3; 4; 5; 6; 7; 8; 9].
Definition frame11 : CANDataSource.Frame := CANDataSource.mkFrame 0x100 1011.
Definition frame12 : CANDataSource.Frame := CANDataSource.mkFrame 0x100 1012.

(** The thread sleeps without dictionary, is woken and reads a full batch,
    then two batches of one frame each. *)
Definition turnsAfterWake : list CANDataSource.Turn :=
  [CANDataSource.mkTurn true (CANDataSource.RecvFrames fullBatch) false;
   CANDataSource.mkTurn false (CANDataSource.RecvFrames [frame11]) false;
   CANDataSource.mkTurn false (CANDataSource.RecvFrames [frame12]) false].

(** Turns of the sender worker: connectivity is alive in both. *)
Definition senderTurn1 : DataSenderManagerWorkerThread.Turn :=
  DataSenderManagerWorkerThread.mkTurn 0 10 [] true.
Definition senderTurn2 : DataSenderManagerWorkerThread.Turn :=
  DataSenderManagerWorkerThread.mkTurn 10 5000 [] true.

End Examples.

(* ===================================================================== *)
(** * Properties                                                          *)
(* ===================================================================== *)

Section PolicyManagerProperties.
Import CollectionSchemeManager Examples.

Implicit Types (m : Maps) (c : ICollectionScheme) (l : list ICollectionScheme).
Implicit Types (k : string) (now : Z).

(** ** Rebuilding the maps *)


Lemma rebuildScheme_other now m r c k :
  getCollectionSchemeID c ≠ k →
  enabled (rebuildScheme now (m, r) c).1 !! k = enabled m !! k ∧
  idle (rebuildScheme now (m, r) c).1 !! k = idle m !! k.
Proof.
  intros Hne. unfold rebuildScheme.
  repeat case_match; simpl; rewrite ?lookup_insert_ne; auto.
Qed.

Lemma rebuildScheme_self now m r c :
  enabled (rebuildScheme now (m, r) c).1 !! getCollectionSchemeID c =
    (if isRunning now c then Some c else enabled m !! getCollectionSchemeID c) ∧
  idle (rebuildScheme now (m, r) c).1 !! getCollectionSchemeID c =
    (if startsLater now c then Some c else idle m !! getCollectionSchemeID c).
Proof.
  unfold rebuildScheme, isRunning, startsLater.
  destruct (now <? getStartTime c) eqn:E1; simpl.
  - rewrite lookup_insert_eq. split; [|done].
    assert ((getStartTime c <=? now) = false) as -> by lia. done.
  - assert ((getStartTime c <=? now) = true) as -> by lia. simpl.
    destruct (now <? getExpiryTime c); simpl; by rewrite ?lookup_insert_eq.
Qed.


Lemma rebuild_fold_other now l : ∀ m r k,
  k ∉ getCollectionSchemeID <$> l →
  enabled (fold_left (rebuildScheme now) l (m, r)).1 !! k = enabled m !! k ∧
  idle (fold_left (rebuildScheme now) l (m, r)).1 !! k = idle m !! k.
Proof.
  induction l as [|c l IH]; intros m r k Hk; cbn [fold_left]; [done|].
  rewrite fmap_cons in Hk. apply not_elem_of_cons in Hk as [Hne Hk].
  destruct (rebuildScheme now (m, r) c) as [m1 r1] eqn:E.
  destruct (IH m1 r1 k Hk) as [-> ->].
  pose proof (rebuildScheme_other now m r c k (not_eq_sym Hne)) as H.
  rewrite E in H. exact H.
Qed.

Lemma rebuild_fold_self now l : ∀ m r c,
  NoDup (getCollectionSchemeID <$> l) → c ∈ l →
  enabled (fold_left (rebuildScheme now) l (m, r)).1 !! getCollectionSchemeID c =
    (if isRunning now c then Some c else enabled m !! getCollectionSchemeID c) ∧
  idle (fold_left (rebuildScheme now) l (m, r)).1 !! getCollectionSchemeID c =
    (if startsLater now c then Some c else idle m !! getCollectionSchemeID c).
Proof.
  induction l as [|c1 l IH]; intros m r c Hnd Hin; [by apply elem_of_nil in Hin|].
  rewrite fmap_cons in Hnd. apply NoDup_cons in Hnd as [Hfresh Hnd].
  cbn [fold_left]. destruct (rebuildScheme now (m, r) c1) as [m1 r1] eqn:E.
  apply elem_of_cons in Hin as [->|Hin].
  - destruct (rebuild_fold_other now l m1 r1 _ Hfresh) as [-> ->].
    pose proof (rebuildScheme_self now m r c1) as H. by rewrite E in H.
  - destruct (IH m1 r1 c Hnd Hin) as [-> ->].
    assert (getCollectionSchemeID c1 ≠ getCollectionSchemeID c) as Hne.
    { intros Heq. apply Hfresh. rewrite Heq. by apply list_elem_of_fmap_2. }
    pose proof (rebuildScheme_other now m r c1 _ Hne) as H1. rewrite E in H1.
    simpl in H1. by destruct H1 as [-> ->].
Qed.


(** Whatever the fold leaves in a map was there before or comes from the list. *)
Lemma rebuild_fold_origin now l : ∀ m r k c,
  (enabled (fold_left (rebuildScheme now) l (m, r)).1 !! k = Some c →
     enabled m !! k = Some c ∨
     (c ∈ l ∧ getCollectionSchemeID c = k ∧ isRunning now c = true)) ∧
  (idle (fold_left (rebuildScheme now) l (m, r)).1 !! k = Some c →
     idle m !! k = Some c ∨
     (c ∈ l ∧ getCollectionSchemeID c = k ∧ startsLater now c = true)).
Proof.
  induction l as [|c1 l IH]; intros m r k c; cbn [fold_left]; [by auto|].
  destruct (rebuildScheme now (m, r) c1) as [m1 r1] eqn:E.
  destruct (IH m1 r1 k c) as [IHe IHi].
  destruct (decide (getCollectionSchemeID c1 = k)) as [<-|Hne].
  - pose proof (rebuildScheme_self now m r c1) as [He Hi]. rewrite E in He, Hi.
    simpl in He, Hi. split; intros H.
    + destruct (IHe H) as [H1|(?&?&?)]; [|right; split_and!; [by apply elem_of_cons; right|done..]].
      rewrite He in H1. destruct (isRunning now c1) eqn:Er; [|by left].
      right. inversion H1; subst. split_and!; [by apply elem_of_cons; left|done..].
    + destruct (IHi H) as [H1|(?&?&?)]; [|right; split_and!; [by apply elem_of_cons; right|done..]].
      rewrite Hi in H1. destruct (startsLater now c1) eqn:Er; [|by left].
      right. inversion H1; subst. split_and!; [by apply elem_of_cons; left|done..].
  - pose proof (rebuildScheme_other now m r c1 k Hne) as [He Hi]. rewrite E in He, Hi.
    simpl in He, Hi. rewrite <- He, <- Hi. split; intros H.
    + destruct (IHe H) as [H1|(?&?&?)]; [by left|right; split_and!; [by apply elem_of_cons; right|done..]].
    + destruct (IHi H) as [H1|(?&?&?)]; [by left|right; split_and!; [by apply elem_of_cons; right|done..]].
Qed.

Lemma not_loaded_empty (s : State) :
  isCollectionSchemeLoaded s = false →
  mEnabledCollectionSchemeMap s = ∅ ∧ mIdleCollectionSchemeMap s = ∅.
Proof.
  unfold isCollectionSchemeLoaded. intros H.
  apply orb_false_iff in H as [H1 H2].
  apply negb_false_iff in H1, H2.
  by apply bool_decide_eq_true in H1, H2.
Qed.

(** Also for lists in which IDs repeat: whatever a rebuild from empty maps
    leaves in a map is a scheme of the list, under its own ID, that is running
    (Enabled map) or not yet started (Idle map). *)
Lemma rebuildMapsandTimeLine_sound now (s : State) (csl : ICollectionSchemeList) k c :
  isCollectionSchemeLoaded s = false →
  mCollectionSchemeList s = Some csl →
  (mEnabledCollectionSchemeMap (rebuildMapsandTimeLine now s).1 !! k = Some c →
     c ∈ getCollectionSchemes csl ∧ getCollectionSchemeID c = k ∧
     getStartTime c ≤ now < getExpiryTime c) ∧
  (mIdleCollectionSchemeMap (rebuildMapsandTimeLine now s).1 !! k = Some c →
     c ∈ getCollectionSchemes csl ∧ getCollectionSchemeID c = k ∧
     now < getStartTime c).
Proof.
  intros Hload Hl. destruct (not_loaded_empty s Hload) as [Hen Hidle].
  unfold rebuildMapsandTimeLine. rewrite Hl.
  pose proof (rebuild_fold_origin now (getCollectionSchemes csl) (mapsOf s) false k c)
    as [He Hi].
  destruct (fold_left _ _ _) as [m r]. simpl in *.
  rewrite Hen, Hidle, !lookup_empty in *. split; intros H.
  - destruct (He H) as [?|(? & ? & Hr)]; [done|].
    unfold isRunning in Hr. split_and!; [done|done|lia|lia].
  - destruct (Hi H) as [?|(? & ? & Hr)]; [done|].
    unfold startsLater in Hr. split_and!; [done|done|lia].
Qed.



(** ** The time line *)


Lemma checkTimeLineEntry_outcome now top (en idl : gmap string ICollectionScheme) :
  match checkTimeLineEntry now top en idl with
  | (en', idl', flipped, exit) => EntryOutcome now top en idl en' idl' flipped exit
  end.
Proof.
  unfold checkTimeLineEntry.
  destruct (en !! id top) as [c|] eqn:Een.
  - simpl. case_bool_decide as Ht.
    + by eapply StaleExpiry.
    + destruct (time top <=? now) eqn:Hle.
      * eapply Disable; eauto; lia.
      * eapply NextExpiry; eauto; lia.
  - destruct (idl !! id top) as [c|] eqn:Eidl.
    + simpl. case_bool_decide as Ht.
      * by eapply StaleStart.
      * destruct (time top <=? now) eqn:Hle.
        -- eapply Enable; eauto; lia.
        -- eapply NextStart; eauto; lia.
    + by apply NotFound.
Qed.

(** Every record of [loopPops] is a turn of the loop that ended in a pop. *)
Lemma loopPops_outcome now tl : ∀ (en idl : gmap string ICollectionScheme) p,
  p ∈ loopPops now tl en idl →
  ∃ flipped,
    EntryOutcome now (poppedEntry p) (enabledBefore p) (idleBefore p)
      (enabledAfter p) (idleAfter p) flipped Popped.
Proof.
  induction tl as [|top rest IH]; intros en idl p Hp; cbn [loopPops] in Hp.
  - by apply elem_of_nil in Hp.
  - pose proof (checkTimeLineEntry_outcome now top en idl) as Hout.
    destruct (checkTimeLineEntry now top en idl) as [[[en' idl'] f] []].
    + apply elem_of_cons in Hp as [->|Hp]; [by exists f|by eapply IH].
    + by apply elem_of_nil in Hp.
Qed.





(** The loop and its record of pops agree: what was popped is the prefix the
    heap lost. *)
Lemma checkTimeLineLoop_popped now tl : ∀ (en idl : gmap string ICollectionScheme) ret,
  tl = (poppedEntry <$> loopPops now tl en idl) ++
       timeLine (checkTimeLineLoop now tl en idl ret).1.
Proof.
  induction tl as [|top rest IH]; intros en idl ret; cbn [checkTimeLineLoop loopPops];
    [done|].
  destruct (checkTimeLineEntry now top en idl) as [[[en' idl'] f] []]; [|done].
  rewrite fmap_cons. simpl. f_equal. apply IH.
Qed.


Lemma withMaps_mapsOf (s : State) : withMaps (mapsOf s) s = s.
Proof. by destruct s. Qed.


Lemma checkTimeLineLoop_chained now tl : ∀ (en idl : gmap string ICollectionScheme) ret,
  chained en idl (loopPops now tl en idl)
    (enabled (checkTimeLineLoop now tl en idl ret).1)
    (idle (checkTimeLineLoop now tl en idl ret).1).
Proof.
  induction tl as [|top rest IH]; intros en idl ret; cbn [checkTimeLineLoop loopPops];
    [done|].
  pose proof (checkTimeLineEntry_outcome now top en idl) as Hout.
  destruct (checkTimeLineEntry now top en idl) as [[[en' idl'] f] []].
  - cbn [chained]. simpl. split_and!; [done|done|apply IH].
  - simpl. by inversion Hout; subst.
Qed.

(** C3.  The pops of [checkTimeLine] are the entries the heap loses, and they
    lead turn by turn from the maps before the call to the maps after it.
    Every one of them either flips a scheme, and then its time is the expiry
    time of the scheme found under its id in the Enabled map (which is
    removed) or the start time of the scheme found in the Idle map (which
    moves to the Enabled map); or its id is in neither map or its time is not
    that expiry or start time, and then both maps are as before the pop. *)
Theorem checkTimeLine_pop_sound now (s : State) :
  (mTimeLine s =
     (poppedEntry <$> checkTimeLinePops now s) ++ mTimeLine (checkTimeLine now s).1 ∧
   chained (mEnabledCollectionSchemeMap s) (mIdleCollectionSchemeMap s)
     (checkTimeLinePops now s)
     (mEnabledCollectionSchemeMap (checkTimeLine now s).1)
     (mIdleCollectionSchemeMap (checkTimeLine now s).1)) ∧
  ∀ p, p ∈ checkTimeLinePops now s →
    let e := poppedEntry p in
    (enabledAfter p ≠ enabledBefore p ∨ idleAfter p ≠ idleBefore p →
       (∃ c, enabledBefore p !! id e = Some c ∧ time e = getExpiryTime c ∧
             enabledAfter p = delete (id e) (enabledBefore p) ∧
             idleAfter p = idleBefore p) ∨
       (∃ c, enabledBefore p !! id e = None ∧ idleBefore p !! id e = Some c ∧
             time e = getStartTime c ∧
             enabledAfter p = <[id e := c]> (enabledBefore p) ∧
             idleAfter p = delete (id e) (idleBefore p))) ∧
    ((enabledBefore p !! id e = None ∧ idleBefore p !! id e = None) ∨
     (∃ c, enabledBefore p !! id e = Some c ∧ time e ≠ getExpiryTime c) ∨
     (∃ c, enabledBefore p !! id e = None ∧ idleBefore p !! id e = Some c ∧
           time e ≠ getStartTime c) →
       enabledAfter p = enabledBefore p ∧ idleAfter p = idleBefore p).
Proof.
  split.
  - unfold checkTimeLine, checkTimeLinePops.
    destruct (mTimeLine s) as [|top rest] eqn:Etl; [by simpl; rewrite Etl|].
    destruct (now <? time top); [by simpl; rewrite Etl|].
    pose proof (checkTimeLineLoop_popped now (top :: rest)
                  (mEnabledCollectionSchemeMap s) (mIdleCollectionSchemeMap s) false) as Hpop.
    pose proof (checkTimeLineLoop_chained now (top :: rest)
                  (mEnabledCollectionSchemeMap s) (mIdleCollectionSchemeMap s) false) as Hch.
    destruct (checkTimeLineLoop now (top :: rest) _ _ false) as [m r]. done.
  - intros p Hp e. subst e.
    assert (p ∈ loopPops now (mTimeLine s)
                (mEnabledCollectionSchemeMap s) (mIdleCollectionSchemeMap s)) as Hp'.
    { unfold checkTimeLinePops in Hp. destruct (mTimeLine s) as [|top rest];
        [by apply elem_of_nil in Hp|].
      destruct (now <? time top); [by apply elem_of_nil in Hp|done]. }
    destruct (loopPops_outcome now _ _ _ p Hp') as [f Hout].
    split.
    + intros Hchg. inversion Hout; subst; try (exfalso; destruct Hchg; congruence).
      * left. exists c. auto.
      * right. exists c. auto.
    + intros Hstale. inversion Hout; subst; try done; exfalso.
      * destruct Hstale as [[? ?]|[(c' & ? & ?)|(c' & ? & ? & ?)]]; congruence.
      * destruct Hstale as [[? ?]|[(c' & ? & ?)|(c' & ? & ? & ?)]]; congruence.
Qed.

(** ** Updating the maps *)

Lemma push_perm e tl : push e tl ≡ₚ e :: tl.
Proof.
  induction tl as [|x tl IH]; simpl; [done|].
  destruct (time e <? time x); [done|].
  rewrite IH. apply Permutation_swap.
Qed.



Lemma updateScheme_ids now m r (ids : gset string) c :
  (updateScheme now (m, r, ids) c).2 = {[getCollectionSchemeID c]} ∪ ids.
Proof. unfold updateScheme. by repeat case_match. Qed.

Lemma updateScheme_other now m r (ids : gset string) c k :
  getCollectionSchemeID c ≠ k →
  enabled (updateScheme now (m, r, ids) c).1.1 !! k = enabled m !! k ∧
  idle (updateScheme now (m, r, ids) c).1.1 !! k = idle m !! k.
Proof.
  intros Hne. unfold updateScheme.
  repeat case_match; simpl; rewrite ?lookup_insert_ne, ?lookup_delete_ne; auto.
Qed.




Lemma update_fold_ids now l : ∀ m r (ids : gset string),
  (fold_left (updateScheme now) l (m, r, ids)).2 =
  list_to_set (getCollectionSchemeID <$> l) ∪ ids.
Proof.
  induction l as [|c l IH]; intros m r ids; cbn [fold_left].
  - simpl. by rewrite union_empty_l_L.
  - pose proof (updateScheme_ids now m r ids c) as H.
    destruct (updateScheme now (m, r, ids) c) as [[m1 r1] ids1].
    rewrite IH. simpl in H. rewrite H. rewrite fmap_cons. simpl.
    rewrite (union_comm_L {[getCollectionSchemeID c]}
               (list_to_set (getCollectionSchemeID <$> l))).
    by rewrite union_assoc_L.
Qed.

Lemma update_fold_other now l : ∀ m r (ids : gset string) k,
  k ∉ getCollectionSchemeID <$> l →
  enabled (fold_left (updateScheme now) l (m, r, ids)).1.1 !! k = enabled m !! k ∧
  idle (fold_left (updateScheme now) l (m, r, ids)).1.1 !! k = idle m !! k.
Proof.
  induction l as [|c l IH]; intros m r ids k Hk; cbn [fold_left]; [done|].
  rewrite fmap_cons in Hk. apply not_elem_of_cons in Hk as [Hne Hk].
  pose proof (updateScheme_other now m r ids c k (not_eq_sym Hne)) as H.
  destruct (updateScheme now (m, r, ids) c) as [[m1 r1] ids1].
  destruct (IH m1 r1 ids1 k Hk) as [-> ->]. exact H.
Qed.



Lemma keepListed_lookup (ids : gset string) (m : gmap string ICollectionScheme) k :
  keepListed ids m !! k = if decide (k ∈ ids) then m !! k else None.
Proof.
  unfold keepListed. destruct (decide (k ∈ ids)) as [Hin|Hout].
  - destruct (m !! k) as [c|] eqn:E.
    + by apply map_lookup_filter_Some.
    + apply map_lookup_filter_None. left. done.
  - apply map_lookup_filter_None. right. intros c _. done.
Qed.

(** What [updateMapsandTimeLine] leaves for a list [l] in the state [s]. *)
Lemma updateMapsandTimeLine_unfold now (s : State) (csl : ICollectionSchemeList) :
  mCollectionSchemeList s = Some csl →
  let acc := fold_left (updateScheme now) (getCollectionSchemes csl) (mapsOf s, false, ∅) in
  mEnabledCollectionSchemeMap (updateMapsandTimeLine now s).1 =
    keepListed acc.2 (enabled acc.1.1) ∧
  mIdleCollectionSchemeMap (updateMapsandTimeLine now s).1 =
    keepListed acc.2 (idle acc.1.1) ∧
  mTimeLine (updateMapsandTimeLine now s).1 = timeLine acc.1.1.
Proof.
  intros Hl acc. subst acc. unfold updateMapsandTimeLine. rewrite Hl.
  by destruct (fold_left _ _ _) as [[m r] ids].
Qed.




Lemma checkTimeLine_pop_sound_witness :
  popStartA ∈ checkTimeLinePops 100 stateIdleA ∧
  (enabledAfter popStartA ≠ enabledBefore popStartA ∨
   idleAfter popStartA ≠ idleBefore popStartA →
     (∃ c, enabledBefore popStartA !! "A" = Some c ∧ 100 = getExpiryTime c ∧
           enabledAfter popStartA = delete "A" (enabledBefore popStartA) ∧
           idleAfter popStartA = idleBefore popStartA) ∨
     (∃ c, enabledBefore popStartA !! "A" = None ∧ idleBefore popStartA !! "A" = Some c ∧
           100 = getStartTime c ∧
           enabledAfter popStartA = <["A" := c]> (enabledBefore popStartA) ∧
           idleAfter popStartA = delete "A" (idleBefore popStartA))).
Proof.
  assert (popStartA ∈ checkTimeLinePops 100 stateIdleA) as Hin.
  { vm_compute. apply list_elem_of_here. }
  split; [exact Hin|].
  destruct (checkTimeLine_pop_sound 100 stateIdleA) as [_ H].
  apply (H popStartA Hin).
Defined.

(** ** What the manager publishes *)

Lemma elem_of_values (m : gmap string ICollectionScheme) c :
  c ∈ values m ↔ ∃ k, m !! k = Some c.
Proof.
  unfold values. rewrite list_elem_of_fmap. split.
  - intros ([k c'] & -> & H). exists k. by apply elem_of_map_to_list in H.
  - intros [k H]. exists (k, c). split; [done|]. by apply elem_of_map_to_list.
Qed.

Lemma elem_of_keys (m : gmap string ICollectionScheme) k :
  k ∈ keys m ↔ is_Some (m !! k).
Proof.
  unfold keys. rewrite list_elem_of_fmap. split.
  - intros ([k' c] & -> & H). exists c. by apply elem_of_map_to_list in H.
  - intros [c H]. exists (k, c). split; [done|]. by apply elem_of_map_to_list.
Qed.

Lemma inSync_true (s : State) :
  isCollectionSchemesInSyncWithDm s = true ↔
  ∀ k c, mEnabledCollectionSchemeMap s !! k = Some c ∨
         mIdleCollectionSchemeMap s !! k = Some c →
         getDecoderManifestID c = mCurrentDecoderManifestID s.
Proof.
  unfold isCollectionSchemesInSyncWithDm.
  rewrite andb_true_iff, !forallb_forall. split.
  - intros [He Hi] k c [H|H].
    + eapply bool_decide_eq_true, He, list_elem_of_In, elem_of_values. eauto.
    + eapply bool_decide_eq_true, Hi, list_elem_of_In, elem_of_values. eauto.
  - intros H. split; intros c Hc; apply list_elem_of_In, elem_of_values in Hc as [k Hk];
      apply bool_decide_eq_true; eauto.
Qed.

(** C2 (as amended).  [updateActiveCollectionSchemeListeners] leaves the
    Enabled and the Idle map as they are and hands one list to the listeners:
    all the schemes of the Enabled map when every scheme of the Enabled and of
    the Idle map refers to the current decoder manifest, and the empty list as
    soon as one of them does not. *)
Theorem activeCollectionSchemes_all_or_nothing (s : State) :
  let s' := updateActiveCollectionSchemeListeners s in
  mEnabledCollectionSchemeMap s' = mEnabledCollectionSchemeMap s ∧
  mIdleCollectionSchemeMap s' = mIdleCollectionSchemeMap s ∧
  mCollectionSchemeListChangeListeners s' =
    mCollectionSchemeListChangeListeners s ++ [activeCollectionSchemesOutput s] ∧
  ((∀ k c, mEnabledCollectionSchemeMap s !! k = Some c ∨
           mIdleCollectionSchemeMap s !! k = Some c →
           getDecoderManifestID c = mCurrentDecoderManifestID s) →
   ∀ c, c ∈ activeCollectionSchemesOutput s ↔
        ∃ k, mEnabledCollectionSchemeMap s !! k = Some c) ∧
  (∀ k c, mEnabledCollectionSchemeMap s !! k = Some c ∨
          mIdleCollectionSchemeMap s !! k = Some c →
          getDecoderManifestID c ≠ mCurrentDecoderManifestID s →
          activeCollectionSchemesOutput s = []).
Proof.
  simpl. split_and!; try done.
  - intros Hsync c. unfold activeCollectionSchemesOutput.
    apply inSync_true in Hsync. rewrite Hsync. apply elem_of_values.
  - intros k c Hc Hne. unfold activeCollectionSchemesOutput.
    destruct (isCollectionSchemesInSyncWithDm s) eqn:E; [|done].
    exfalso. apply Hne. eapply inSync_true; eauto.
Qed.

(** C2, counterexample.  The first pass at time 50 with the manifest DM1 and
    the schemes B (of DM1) and D (of DM2): both are loaded in the Enabled map,
    and the one list handed to the listeners is empty, so B, whose manifest
    is the current one, is not published. *)
Lemma in_sync_scheme_not_published :
  let s := (doWorkPass 50 50 true stateStartBD).1 in
  mCurrentDecoderManifestID s = "DM1" ∧
  mEnabledCollectionSchemeMap s !! "B" = Some schemeB ∧
  getDecoderManifestID schemeB = "DM1" ∧
  mEnabledCollectionSchemeMap s !! "D" = Some schemeD ∧
  mCollectionSchemeListChangeListeners s = [[]].
Proof. vm_compute. repeat split; reflexivity. Qed.

Lemma activeCollectionSchemes_all_or_nothing_witness :
  activeCollectionSchemesOutput (doWorkPass 50 50 true stateStartBD).1 = [].
Proof.
  destruct (activeCollectionSchemes_all_or_nothing (doWorkPass 50 50 true stateStartBD).1)
    as (_ & _ & _ & _ & H).
  apply (H "D" schemeD).
  - left. reflexivity.
  - discriminate.
Defined.

(** C6 (as amended).  [updateCheckinDocuments] sends one checkin; an ID is in
    it exactly when it is the key of a scheme of the Enabled map, the key of a
    scheme of the Idle map, or the current decoder manifest ID and that ID is
    not the empty string. *)
Theorem checkin_lists_loaded_ids (s : State) :
  mCheckinSender (updateCheckinDocuments s) = mCheckinSender s ++ [checkinMsg s] ∧
  ∀ x, x ∈ checkinMsg s ↔
       is_Some (mEnabledCollectionSchemeMap s !! x) ∨
       is_Some (mIdleCollectionSchemeMap s !! x) ∨
       (x = mCurrentDecoderManifestID s ∧ mCurrentDecoderManifestID s ≠ EmptyString).
Proof.
  split; [done|]. intros x. unfold checkinMsg.
  rewrite !elem_of_app, !elem_of_keys.
  case_bool_decide as E.
  - rewrite elem_of_nil. intuition congruence.
  - rewrite list_elem_of_singleton. intuition congruence.
Qed.

(** C6, counterexample.  The first pass at time 50 with the scheme B and no
    decoder manifest: the checkin lists B alone, and not the current manifest
    ID, which is the empty string. *)
Lemma checkin_without_manifest_id :
  let s := (doWorkPass 50 50 true stateStartB).1 in
  mCheckinSender s = [["B"]] ∧
  mEnabledCollectionSchemeMap s !! "B" = Some schemeB ∧
  mCurrentDecoderManifestID s = "" ∧
  mCurrentDecoderManifestID s ∉ ["B"].
Proof.
  vm_compute. repeat split; try reflexivity.
  intros H. apply list_elem_of_singleton in H. discriminate.
Qed.

Lemma checkin_lists_loaded_ids_witness :
  "B" ∈ checkinMsg (doWorkPass 50 50 true stateStartB).1.
Proof.
  destruct (checkin_lists_loaded_ids (doWorkPass 50 50 true stateStartB).1) as [_ H].
  apply H. left. exists schemeB. reflexivity.
Defined.

(** ** The decoder manifest *)


Lemma keepsManifest_refl s : keepsManifest s s.
Proof. by unfold keepsManifest. Qed.









End PolicyManagerProperties.

Section OBDProperties.
Import OBDOverCANModule Examples.

Lemma land_byte_bounds (z : Z) : 0 ≤ Z.land z 0xFF < 256.
Proof.
  change 0xFF with (Z.ones 8). rewrite Z.land_ones by lia.
  apply Z.mod_pos_bound. lia.
Qed.

Lemma getTxIDByRxID_extended (rx : Z) :
  getTxIDByRxID true rx = Z.lor 0x18DA00F1 (Z.shiftl (Z.land rx 0xFF) 8).
Proof.
  unfold getTxIDByRxID, wrap32, MASKING_GET_BYTE, MASKING_SHIFT_BITS,
    MASKING_TEMPLATE_TX_ID.
  pose proof (land_byte_bounds rx) as Hb.
  rewrite Z.shiftl_mul_pow2 by lia.
  rewrite Z.mod_small by lia. apply Z.lor_comm.
Qed.

Lemma getTxIDByRxID_standard (rx : Z) :
  8 ≤ rx < 2 ^ 32 → getTxIDByRxID false rx = rx - 8.
Proof.
  intros H. unfold getTxIDByRxID, wrap32, MASKING_REMOVE_BYTE.
  apply Z.mod_small. lia.
Qed.

Lemma receiveLoop_responses isExtendedID turns : ∀ acc,
  (receiveLoop isExtendedID turns acc).2 =
  acc ++ (frameCANId isExtendedID <$>
            filter (λ can_id, isValidECUResponse isExtendedID can_id = true)
              (framesReceived turns)).
Proof.
  induction turns as [|t turns IH]; intros acc; simpl.
  - by rewrite app_nil_r.
  - destruct t; simpl; try by rewrite app_nil_r.
    rewrite IH. rewrite filter_cons.
    destruct (isValidECUResponse isExtendedID can_id) eqn:E.
    + rewrite decide_True by done. rewrite fmap_cons. by rewrite <- app_assoc.
    + rewrite decide_False by done. done.
Qed.

(** C7.  A response frame is taken as an ECU rx ID exactly when its CAN ID
    (masked to 29 bits with extended addressing) lies in [0x7E8, 0x7EF], or
    [0x18DAF100, 0x18DAF1FF] with extended addressing; the responses
    [autoDetectECUs] collects are the rx IDs of the frames that pass this
    test; and for every rx ID so accepted the tx ID is [rx - 8], or
    [0x18DA00F1 | ((rx & 0xFF) << 8)] with extended addressing. *)
Theorem ecu_rx_and_tx_ids (isExtendedID : bool) :
  (∀ can_id,
     isValidECUResponse isExtendedID can_id = true ↔
     if isExtendedID
     then 0x18DAF100 ≤ Z.land can_id 0x1FFFFFFF ≤ 0x18DAF1FF
     else 0x7E8 ≤ can_id ≤ 0x7EF) ∧
  (∀ turns,
     (receiveLoop isExtendedID turns []).2 =
     frameCANId isExtendedID <$>
       filter (λ can_id, isValidECUResponse isExtendedID can_id = true)
         (framesReceived turns)) ∧
  (∀ can_id,
     isValidECUResponse isExtendedID can_id = true →
     let rx := frameCANId isExtendedID can_id in
     getTxIDByRxID isExtendedID rx =
     if isExtendedID then Z.lor 0x18DA00F1 (Z.shiftl (Z.land rx 0xFF) 8) else rx - 8).
Proof.
  split_and!.
  - intros can_id. unfold isValidECUResponse, smallestCANId, biggestCANId, frameCANId,
      LOWEST_ECU_EXTENDED_RX_ID, HIGHEST_ECU_EXTENDED_RX_ID, LOWEST_ECU_RX_ID,
      HIGHEST_ECU_RX_ID, CAN_EFF_MASK.
    destruct isExtendedID; rewrite andb_true_iff, !Z.leb_le; done.
  - intros turns. apply (receiveLoop_responses isExtendedID turns []).
  - intros can_id Hv rx. subst rx. destruct isExtendedID.
    + apply getTxIDByRxID_extended.
    + apply getTxIDByRxID_standard.
      unfold isValidECUResponse, smallestCANId, biggestCANId, frameCANId,
        LOWEST_ECU_RX_ID, HIGHEST_ECU_RX_ID in *.
      apply andb_true_iff in Hv as [H1 H2]. lia.
Qed.

Lemma ecu_rx_and_tx_ids_witness :
  isValidECUResponse false 0x7E8 = true ∧ getTxIDByRxID false 0x7E8 = 0x7E0 ∧
  isValidECUResponse true 0x98DAF159 = true ∧ getTxIDByRxID true 0x18DAF159 = 0x18DA59F1.
Proof.
  destruct (ecu_rx_and_tx_ids false) as (_ & _ & H11).
  destruct (ecu_rx_and_tx_ids true) as (_ & _ & H29).
  split; [reflexivity|]. split; [exact (H11 0x7E8 eq_refl)|].
  split; [reflexivity|]. exact (H29 0x98DAF159 eq_refl).
Defined.



(** For contrast: the started module does use the bus. *)
Example started_module_uses_bus :
  busActions (connect true modulePID1).1
    [mkDetectionAttempt true [Received 0x7E8] true []] [mkAcquisitionTurn 5 5 false true]
  = [BroadcastDiscovery false; RequestPIDs].
Proof. reflexivity. Qed.

End OBDProperties.

Section CANReaderProperties.
Import CANDataSource Examples.

Lemma processFrames_woken (frames : list Frame) : ∀ st,
  wokeUpFromSleep st = true → fold_left processFrame frames st = st.
Proof.
  induction frames as [|f frames IH]; intros st Hw; simpl; [done|].
  unfold processFrame at 2. rewrite Hw. simpl. by apply IH.
Qed.

Lemma processFrames_awake (frames : list Frame) : ∀ st,
  wokeUpFromSleep st = false →
  let st' := fold_left processFrame frames st in
  wokeUpFromSleep st' = false ∧
  mConsumer st' = mConsumer st ++ frames ∧
  mReceivedMessages st' = mReceivedMessages st + Z.of_nat (length frames).
Proof.
  induction frames as [|f frames IH]; intros st Hw; simpl.
  - rewrite app_nil_r. split_and!; [done|done|lia].
  - unfold processFrame at 2 4 6. rewrite Hw. simpl.
    match goal with |- context [fold_left processFrame frames ?s] =>
      destruct (IH s eq_refl) as (H1 & H2 & H3) end.
    simpl in *. rewrite H1, H2, H3. split_and!; [done| |lia].
    by rewrite <- app_assoc.
Qed.










End CANReaderProperties.

Section SenderWorkerProperties.
Import DataSenderManagerWorkerThread Examples.


Lemma retrievals_processData (data : list Z) : retrievals (ProcessData <$> data) = 0%nat.
Proof.
  unfold retrievals. induction data as [|d data IH]; [done|].
  rewrite fmap_cons, filter_cons. by rewrite decide_False.
Qed.

Lemma retrievals_app (a b : list Call) :
  retrievals (a ++ b) = (retrievals a + retrievals b)%nat.
Proof. unfold retrievals. by rewrite filter_app, length_app. Qed.

Lemma turnCalls_unfold interval (st : State) (t : Turn) :
  turnCalls interval st t =
  (ProcessData <$> concat (queued t)) ++
  (if retryDue interval st t && isAlive t then [CheckAndSendRetrievedData] else []).
Proof.
  unfold turnCalls, doWorkTurn.
  destruct (retryDue interval st t); destruct (isAlive t); simpl;
    rewrite <- ?app_assoc, ?drop_app_length, ?app_nil_r; done.
Qed.

(** C9 (as amended).  In a turn in which the connectivity module is not alive
    the worker does not ask for the stored payloads.  In a turn in which it is
    alive, and which is the first one after the start (or any one before the
    first upload) or finds the retry timer at or beyond a non-zero
    [persistencyUploadRetryIntervalMs], the worker asks for them exactly once
    and resets the timer. *)
Theorem persisted_data_retry interval startClock (before : list Turn) (t : Turn) :
  let st := doWork interval startClock before in
  (isAlive t = false → retrievals (turnCalls interval st t) = 0%nat) ∧
  (isAlive t = true →
   before = [] ∨ uploadedPersistedDataOnce st = false ∨
   (0 < interval ∧ interval ≤ getElapsedMs st (clockAtCheck t)) →
     retrievals (turnCalls interval st t) = 1%nat ∧
     mRetrySendingPersistedDataTimer (doWorkTurn interval st t) = clockAtCheck t).
Proof.
  intros st. rewrite turnCalls_unfold, retrievals_app, retrievals_processData. split.
  - intros ->. by rewrite andb_false_r.
  - intros Ha Hdue.
    assert (retryDue interval st t = true) as Hr.
    { unfold retryDue. destruct Hdue as [Hnil|[Hu|[H1 H2]]].
      - subst st. by rewrite Hnil.
      - by rewrite Hu.
      - apply orb_true_iff. right. apply andb_true_iff. split; lia. }
    unfold doWorkTurn. rewrite Hr, Ha. done.
Qed.

(** C9, counterexample.  With [persistencyUploadRetryIntervalMs] = 0 the
    worker uploads once in its first turn; in the second turn the timer (4990
    ms) is beyond the interval and connectivity is alive, but the worker does
    not ask for the stored payloads and does not reset the timer. *)
Lemma no_retry_with_zero_interval :
  let st := doWork 0 0 [senderTurn1] in
  isAlive senderTurn2 = true ∧
  0 ≤ getElapsedMs st (clockAtCheck senderTurn2) ∧
  retrievals (turnCalls 0 st senderTurn2) = 0%nat ∧
  mRetrySendingPersistedDataTimer (doWorkTurn 0 st senderTurn2) =
    mRetrySendingPersistedDataTimer st.
Proof. vm_compute. repeat split; try reflexivity. discriminate. Qed.

Lemma persisted_data_retry_witness :
  retrievals (turnCalls 1000 (doWork 1000 0 [senderTurn1]) senderTurn2) = 1%nat ∧
  mRetrySendingPersistedDataTimer
    (doWorkTurn 1000 (doWork 1000 0 [senderTurn1]) senderTurn2) = 5000.
Proof.
  destruct (persisted_data_retry 1000 0 [senderTurn1] senderTurn2) as [_ H].
  apply H; [reflexivity|]. right. right. vm_compute. split; [reflexivity|discriminate].
Defined.

End SenderWorkerProperties.

(* ===================================================================== *)
(** * Further properties of the policy manager                            *)
(* ===================================================================== *)

Section PolicyManagerMore.
Import CollectionSchemeManager Examples.

Implicit Types (m : Maps) (c : ICollectionScheme) (l : list ICollectionScheme).
Implicit Types (k : string) (now : Z).

(** ** What [checkTimeLine] leaves behind *)

Lemma checkTimeLineLoop_top_later now tl :
  ∀ (en idl : gmap string ICollectionScheme) ret e rest,
  timeLine (checkTimeLineLoop now tl en idl ret).1 = e :: rest → now < time e.
Proof.
  induction tl as [|top tl IH]; intros en idl ret e rest; cbn [checkTimeLineLoop];
    [done|].
  pose proof (checkTimeLineEntry_outcome now top en idl) as Hout.
  destruct (checkTimeLineEntry now top en idl) as [[[en' idl'] f] []].
  - apply IH.
  - simpl. intros [= <- <-]. by inversion Hout; subst.
Qed.

(** After [checkTimeLine] the entry on top of the heap, if there is one, is
    not yet due. *)
Lemma checkTimeLine_top_not_due now (s : State) e rest :
  mTimeLine (checkTimeLine now s).1 = e :: rest → now < time e.
Proof.
  revert e rest.
  unfold checkTimeLine. destruct (mTimeLine s) as [|top tl] eqn:Etl.
  { simpl. by rewrite Etl. }
  destruct (now <? time top) eqn:Ecmp.
  { simpl. rewrite Etl. intros e rest [= <- <-]. lia. }
  pose proof (checkTimeLineLoop_top_later now (top :: tl)
                (mEnabledCollectionSchemeMap s) (mIdleCollectionSchemeMap s) false) as Hl.
  destruct (checkTimeLineLoop now (top :: tl) _ _ false) as [m r]. exact Hl.
Qed.

(** X1.  After [checkTimeLine] the heap is empty or the entry on its top is
    not yet due, so a second call at the same time pops nothing, changes
    nothing and returns false. *)
Theorem checkTimeLine_settles now (s : State) :
  (∀ e rest, mTimeLine (checkTimeLine now s).1 = e :: rest → now < time e) ∧
  checkTimeLine now (checkTimeLine now s).1 = ((checkTimeLine now s).1, false).
Proof.
  assert (∀ e rest, mTimeLine (checkTimeLine now s).1 = e :: rest → now < time e) as H
    by apply checkTimeLine_top_not_due.
  split; [exact H|].
  unfold checkTimeLine at 1.
  destruct (mTimeLine (checkTimeLine now s).1) as [|e rest] eqn:E; [done|].
  assert ((now <? time e) = true) as -> by (apply Z.ltb_lt; eapply H; eauto). done.
Qed.

(** Each flip makes the two maps smaller in the measure
    [2 * size idle + size enabled]. *)
Lemma EntryOutcome_measure now top (en idl en' idl' : gmap string ICollectionScheme) f x :
  EntryOutcome now top en idl en' idl' f x →
  (f = false → en' = en ∧ idl' = idl) ∧
  (f = true → (2 * size idl' + size en' < 2 * size idl + size en)%nat).
Proof.
  intros H. inversion H; subst; (split; [try done|try done]); intros _.
  - rewrite map_size_delete_Some by eauto.
    assert (size en ≠ 0%nat); [|lia].
    apply map_size_non_empty_iff. intros ->. by rewrite lookup_empty in *.
  - rewrite map_size_insert_None by done.
    rewrite map_size_delete_Some by eauto.
    assert (size idl ≠ 0%nat); [|lia].
    apply map_size_non_empty_iff. intros ->. by rewrite lookup_empty in *.
Qed.

Lemma checkTimeLineLoop_measure now tl :
  ∀ (en idl : gmap string ICollectionScheme) ret,
  let r := checkTimeLineLoop now tl en idl ret in
  (r.2 = false → ret = false ∧ enabled r.1 = en ∧ idle r.1 = idl) ∧
  (r.2 = true → ret = true ∨
     (2 * size (idle r.1) + size (enabled r.1) < 2 * size idl + size en)%nat) ∧
  (2 * size (idle r.1) + size (enabled r.1) ≤ 2 * size idl + size en)%nat.
Proof.
  induction tl as [|top tl IH]; intros en idl ret; cbn [checkTimeLineLoop].
  - simpl. split_and!; auto.
  - pose proof (checkTimeLineEntry_outcome now top en idl) as Hout.
    destruct (checkTimeLineEntry now top en idl) as [[[en' idl'] f] x].
    destruct (EntryOutcome_measure _ _ _ _ _ _ _ _ Hout) as [Hf Ht].
    destruct x.
    + specialize (IH en' idl' (if f then true else ret)). simpl in IH.
      destruct IH as (IH1 & IH2 & IH3). destruct f.
      * specialize (Ht eq_refl). split_and!.
        -- intros Hr. by destruct (IH1 Hr).
        -- intros _. right. lia.
        -- lia.
      * destruct (Hf eq_refl) as [-> ->]. split_and!; auto.
    + simpl. destruct f.
      * specialize (Ht eq_refl). split_and!; [done|intros _; right; lia|lia].
      * destruct (Hf eq_refl) as [-> ->]. split_and!; auto.
Qed.

(** X2.  [checkTimeLine] returns false exactly when it leaves the Enabled and
    the Idle map as they were. *)
Theorem checkTimeLine_false_iff_unchanged now (s : State) :
  (checkTimeLine now s).2 = false ↔
  mEnabledCollectionSchemeMap (checkTimeLine now s).1 = mEnabledCollectionSchemeMap s ∧
  mIdleCollectionSchemeMap (checkTimeLine now s).1 = mIdleCollectionSchemeMap s.
Proof.
  unfold checkTimeLine. destruct (mTimeLine s) as [|top tl] eqn:Etl; [done|].
  destruct (now <? time top); [done|].
  pose proof (checkTimeLineLoop_measure now (top :: tl)
                (mEnabledCollectionSchemeMap s) (mIdleCollectionSchemeMap s) false)
    as (H1 & H2 & _).
  destruct (checkTimeLineLoop now (top :: tl) _ _ false) as [m r]. simpl in *.
  split.
  - intros Hr. by destruct (H1 Hr) as (_ & -> & ->).
  - intros [He Hi]. destruct r; [|done].
    destruct (H2 eq_refl) as [?|Hlt]; [done|]. rewrite He, Hi in Hlt. lia.
Qed.

(** ** What the result of [updateMapsandTimeLine] tells *)

Lemma updateScheme_false now m r (ids : gset string) c :
  (updateScheme now (m, r, ids) c).1.2 = false →
  r = false ∧ enabled (updateScheme now (m, r, ids) c).1.1 = enabled m.
Proof.
  unfold updateScheme.
  destruct (enabled m !! getCollectionSchemeID c) as [cur|] eqn:He.
  - destruct (getExpiryTime c <=? now); [done|].
    case_bool_decide as H1; case_bool_decide as H2; simpl; try done.
    exfalso. subst. congruence.
  - destruct (idle m !! getCollectionSchemeID c) as [cur|];
      repeat case_match; simpl; done.
Qed.

Lemma update_fold_false now l : ∀ m r (ids : gset string),
  (fold_left (updateScheme now) l (m, r, ids)).1.2 = false →
  r = false ∧ enabled (fold_left (updateScheme now) l (m, r, ids)).1.1 = enabled m.
Proof.
  induction l as [|c l IH]; intros m r ids; cbn [fold_left]; [done|].
  pose proof (updateScheme_false now m r ids c) as H.
  destruct (updateScheme now (m, r, ids) c) as [[m1 r1] ids1]. simpl in H.
  intros Hr. destruct (IH m1 r1 ids1 Hr) as [-> ->]. by apply H.
Qed.

Lemma keepListed_all (ids : gset string) (mp : gmap string ICollectionScheme) :
  anyMissing ids mp = false → keepListed ids mp = mp.
Proof.
  unfold anyMissing, keepListed. intros H. apply negb_false_iff in H.
  apply map_filter_id. intros k c Hk. simpl.
  rewrite forallb_forall in H.
  eapply bool_decide_eq_true, H, list_elem_of_In, elem_of_keys. eauto.
Qed.

(** X3.  When [updateMapsandTimeLine] returns false the Enabled map is what
    it was before the call (the comment of the function: "Returns true when
    mEnabledCollectionSchemeMap changes"). *)
Theorem updateMapsandTimeLine_false_unchanged now (s : State) :
  (updateMapsandTimeLine now s).2 = false →
  mEnabledCollectionSchemeMap (updateMapsandTimeLine now s).1 =
  mEnabledCollectionSchemeMap s.
Proof.
  unfold updateMapsandTimeLine. destruct (mCollectionSchemeList s) as [csl|]; [|done].
  pose proof (update_fold_false now (getCollectionSchemes csl) (mapsOf s) false ∅) as H.
  destruct (fold_left _ _ _) as [[m r] ids]. simpl in *.
  destruct (anyMissing ids (enabled m)) eqn:Emiss; [done|].
  intros ->. destruct (H eq_refl) as [_ <-]. by apply keepListed_all.
Qed.

Lemma updateMapsandTimeLine_false_unchanged_witness :
  (updateMapsandTimeLine 50 stateIdleAUpdated).2 = false ∧
  mEnabledCollectionSchemeMap (updateMapsandTimeLine 50 stateIdleAUpdated).1 = ∅.
Proof.
  split; [reflexivity|].
  apply (updateMapsandTimeLine_false_unchanged 50 stateIdleAUpdated). reflexivity.
Defined.

(** ** A pass of [doWork], step by step *)

Lemma doWorkPass_unfold updateTime checkTime initial (s : State) :
  let r1 := if mProcessDecoderManifest s
            then processDecoderManifest
                   (setProcessFlags (mProcessCollectionScheme s) false s)
            else (s, false) in
  let r2 := if mProcessCollectionScheme r1.1
            then processCollectionScheme updateTime
                   (setProcessFlags false (mProcessDecoderManifest r1.1) r1.1)
            else (r1.1, false) in
  let r3 := checkTimeLine checkTime r2.1 in
  let enChanged := if r3.2 then true else r2.2 in
  let changed := r1.2 || enChanged in
  let s4 := if changed || initial then updateCheckinDocuments r3.1 else r3.1 in
  doWorkPass updateTime checkTime initial s =
  (if changed then updateActiveCollectionSchemeListeners s4 else s4,
   mkPassFlags r1.2 enChanged).
Proof.
  unfold doWorkPass.
  destruct (if mProcessDecoderManifest s then _ else _) as [s1 d1]. simpl.
  destruct (if mProcessCollectionScheme s1 then _ else _) as [s2 d2]. simpl.
  destruct (checkTimeLine checkTime s2) as [s3 d3]. simpl.
  by rewrite andb_diag.
Qed.

Lemma processDecoderManifest_maps (s : State) :
  mapsOf (processDecoderManifest s).1 = mapsOf s ∧
  mCollectionSchemeList (processDecoderManifest s).1 = mCollectionSchemeList s ∧
  mCheckinSender (processDecoderManifest s).1 = mCheckinSender s ∧
  mCollectionSchemeListChangeListeners (processDecoderManifest s).1 =
    mCollectionSchemeListChangeListeners s.
Proof. unfold processDecoderManifest. by repeat case_match. Qed.

(** *** Schemes are stored under their own ID *)

Lemma rebuildScheme_keyed now m r c :
  keyedByID m → keyedByID (rebuildScheme now (m, r) c).1.
Proof.
  intros [He Hi]. unfold rebuildScheme, keyedByID.
  repeat case_match; simpl; split; try done; by apply map_Forall_insert_2.
Qed.

Lemma updateScheme_keyed now m r (ids : gset string) c :
  keyedByID m → keyedByID (updateScheme now (m, r, ids) c).1.1.
Proof.
  intros [He Hi]. unfold updateScheme, keyedByID.
  repeat case_match; simpl; split; try done;
    repeat first [ done | apply map_Forall_insert_2 | apply map_Forall_delete ].
Qed.

Lemma keepListed_keyed (ids : gset string) (mp : gmap string ICollectionScheme) :
  map_Forall (λ k c, getCollectionSchemeID c = k) mp →
  map_Forall (λ k c, getCollectionSchemeID c = k) (keepListed ids mp).
Proof.
  intros H k c Hk. apply (H k c). unfold keepListed in Hk.
  by apply map_lookup_filter_Some in Hk as [? _].
Qed.

Lemma rebuild_fold_keyed now l : ∀ m r,
  keyedByID m → keyedByID (fold_left (rebuildScheme now) l (m, r)).1.
Proof.
  induction l as [|c l IH]; intros m r Hk; cbn [fold_left]; [done|].
  pose proof (rebuildScheme_keyed now m r c Hk) as H.
  destruct (rebuildScheme now (m, r) c) as [m1 r1]. by apply IH.
Qed.

Lemma update_fold_keyed now l : ∀ m r (ids : gset string),
  keyedByID m → keyedByID (fold_left (updateScheme now) l (m, r, ids)).1.1.
Proof.
  induction l as [|c l IH]; intros m r ids Hk; cbn [fold_left]; [done|].
  pose proof (updateScheme_keyed now m r ids c Hk) as H.
  destruct (updateScheme now (m, r, ids) c) as [[m1 r1] ids1]. by apply IH.
Qed.

Lemma processCollectionScheme_keyed now (s : State) :
  keyedByID (mapsOf s) → keyedByID (mapsOf (processCollectionScheme now s).1).
Proof.
  intros Hk. unfold processCollectionScheme.
  destruct (mCollectionSchemeList s) as [csl|] eqn:El; [|done].
  destruct (buildSchemes csl); [|done]. simpl.
  destruct (isCollectionSchemeLoaded _).
  - unfold updateMapsandTimeLine. simpl. rewrite El.
    pose proof (update_fold_keyed now (getCollectionSchemes csl)
                  (mapsOf (storeCollectionSchemeList s)) false ∅ Hk) as [He Hi].
    destruct (fold_left _ _ _) as [[m r] ids]. simpl in *.
    split; by apply keepListed_keyed.
  - unfold rebuildMapsandTimeLine. simpl. rewrite El.
    pose proof (rebuild_fold_keyed now (getCollectionSchemes csl)
                  (mapsOf (storeCollectionSchemeList s)) false Hk) as H.
    by destruct (fold_left _ _ _) as [m r].
Qed.

Lemma EntryOutcome_keyed now top (en idl en' idl' : gmap string ICollectionScheme) f x :
  EntryOutcome now top en idl en' idl' f x →
  keyedByID (mkMaps en idl []) → keyedByID (mkMaps en' idl' []).
Proof.
  intros H [He Hi]. unfold keyedByID in *. simpl in *.
  inversion H; subst; split; try done;
    repeat first [ done | apply map_Forall_delete | apply map_Forall_insert_2 ].
  by apply (Hi (id top) c).
Qed.

Lemma checkTimeLineLoop_keyed now tl : ∀ (en idl : gmap string ICollectionScheme) ret,
  keyedByID (mkMaps en idl []) →
  keyedByID (checkTimeLineLoop now tl en idl ret).1.
Proof.
  induction tl as [|top tl IH]; intros en idl ret Hk; cbn [checkTimeLineLoop]; [done|].
  pose proof (checkTimeLineEntry_outcome now top en idl) as Hout.
  destruct (checkTimeLineEntry now top en idl) as [[[en' idl'] f] x].
  pose proof (EntryOutcome_keyed _ _ _ _ _ _ _ _ Hout Hk) as Hk'.
  destruct x; [by apply IH|done].
Qed.

Lemma checkTimeLine_keyed now (s : State) :
  keyedByID (mapsOf s) → keyedByID (mapsOf (checkTimeLine now s).1).
Proof.
  intros Hk. unfold checkTimeLine. destruct (mTimeLine s) as [|top tl] eqn:Etl; [done|].
  destruct (now <? time top); [done|].
  pose proof (checkTimeLineLoop_keyed now (top :: tl) _ _ false Hk) as H.
  by destruct (checkTimeLineLoop now (top :: tl) _ _ false) as [m r].
Qed.

(** X4.  Every pass of [doWork] keeps the schemes of the Enabled and of the
    Idle map stored under their own IDs, whatever documents are pending and
    whatever the clock shows. *)
Theorem doWorkPass_keyedByID updateTime checkTime initial (s : State) :
  keyedByID (mapsOf s) →
  keyedByID (mapsOf (doWorkPass updateTime checkTime initial s).1).
Proof.
  intros Hk. rewrite doWorkPass_unfold. cbv zeta.
  set (r1 := if mProcessDecoderManifest s then _ else _).
  assert (keyedByID (mapsOf r1.1)) as H1.
  { subst r1. destruct (mProcessDecoderManifest s); [|done].
    by destruct (processDecoderManifest_maps
                   (setProcessFlags (mProcessCollectionScheme s) false s)) as [-> _]. }
  set (r2 := if mProcessCollectionScheme r1.1 then _ else _).
  assert (keyedByID (mapsOf r2.1)) as H2.
  { subst r2. destruct (mProcessCollectionScheme r1.1); [|done].
    by apply processCollectionScheme_keyed. }
  pose proof (checkTimeLine_keyed checkTime r2.1 H2) as H3.
  simpl. repeat case_match; done.
Qed.

(** *** No ID is in both maps *)

Lemma updateScheme_disjoint now m r (ids : gset string) c :
  disjointMaps m → disjointMaps (updateScheme now (m, r, ids) c).1.1.
Proof.
  intros Hd k. destruct (decide (getCollectionSchemeID c = k)) as [<-|Hne].
  2: { destruct (updateScheme_other now m r ids c k Hne) as [-> ->]. apply Hd. }
  specialize (Hd (getCollectionSchemeID c)). unfold updateScheme.
  destruct (enabled m !! getCollectionSchemeID c) as [cur|] eqn:He.
  - destruct Hd as [?|Hi]; [done|].
    repeat case_match; simpl; right; done.
  - destruct (idle m !! getCollectionSchemeID c) as [cur|] eqn:Hi;
      repeat case_match; simpl;
      rewrite ?lookup_insert_eq, ?lookup_delete_eq, ?He, ?Hi; auto.
Qed.

Lemma update_fold_disjoint now l : ∀ m r (ids : gset string),
  disjointMaps m → disjointMaps (fold_left (updateScheme now) l (m, r, ids)).1.1.
Proof.
  induction l as [|c l IH]; intros m r ids Hd; cbn [fold_left]; [done|].
  pose proof (updateScheme_disjoint now m r ids c Hd) as H.
  destruct (updateScheme now (m, r, ids) c) as [[m1 r1] ids1]. by apply IH.
Qed.

Lemma rebuild_disjoint now l m r :
  enabled m = ∅ → idle m = ∅ →
  NoDup (getCollectionSchemeID <$> l) →
  disjointMaps (fold_left (rebuildScheme now) l (m, r)).1.
Proof.
  intros He Hi Hnd k.
  destruct (decide (k ∈ getCollectionSchemeID <$> l)) as [Hin|Hout].
  - apply list_elem_of_fmap in Hin as (c & -> & Hc).
    destruct (rebuild_fold_self now l m r c Hnd Hc) as [-> ->].
    rewrite He, Hi, !lookup_empty. unfold isRunning, startsLater.
    destruct (now <? getStartTime c) eqn:E; [left|by right].
    assert ((getStartTime c <=? now) = false) as -> by lia. done.
  - destruct (rebuild_fold_other now l m r k Hout) as [-> _].
    left. rewrite He. apply lookup_empty.
Qed.

Lemma processCollectionScheme_disjoint now (s : State) :
  (∀ csl, mCollectionSchemeList s = Some csl →
          NoDup (getCollectionSchemeID <$> getCollectionSchemes csl)) →
  disjointMaps (mapsOf s) → disjointMaps (mapsOf (processCollectionScheme now s).1).
Proof.
  intros Hnd Hd. unfold processCollectionScheme.
  destruct (mCollectionSchemeList s) as [csl|] eqn:El; [|done].
  destruct (buildSchemes csl); [|done]. simpl.
  destruct (isCollectionSchemeLoaded _) eqn:Eload.
  - unfold updateMapsandTimeLine. simpl. rewrite El.
    pose proof (update_fold_disjoint now (getCollectionSchemes csl)
                  (mapsOf (storeCollectionSchemeList s)) false ∅ Hd) as H.
    destruct (fold_left _ _ _) as [[m r] ids]. simpl in *.
    intros k. specialize (H k). simpl. rewrite !keepListed_lookup.
    destruct (decide (k ∈ ids)); [done|by left].
  - unfold rebuildMapsandTimeLine. simpl. rewrite El.
    destruct (not_loaded_empty _ Eload) as [He Hi].
    pose proof (rebuild_disjoint now (getCollectionSchemes csl)
                  (mapsOf (storeCollectionSchemeList s)) false He Hi
                  (Hnd csl eq_refl)) as H.
    by destruct (fold_left _ _ _) as [m r].
Qed.

Lemma EntryOutcome_disjoint now top (en idl en' idl' : gmap string ICollectionScheme) f x :
  EntryOutcome now top en idl en' idl' f x →
  disjointMaps (mkMaps en idl []) → disjointMaps (mkMaps en' idl' []).
Proof.
  intros H Hd k. specialize (Hd k). simpl in *.
  inversion H; subst; try done.
  - destruct (decide (id top = k)) as [<-|Hne];
      [left; apply lookup_delete_eq|by rewrite lookup_delete_ne].
  - destruct (decide (id top = k)) as [<-|Hne];
      [right; apply lookup_delete_eq|by rewrite lookup_insert_ne, lookup_delete_ne].
Qed.

Lemma checkTimeLineLoop_disjoint now tl : ∀ (en idl : gmap string ICollectionScheme) ret,
  disjointMaps (mkMaps en idl []) →
  disjointMaps (checkTimeLineLoop now tl en idl ret).1.
Proof.
  induction tl as [|top tl IH]; intros en idl ret Hk; cbn [checkTimeLineLoop]; [done|].
  pose proof (checkTimeLineEntry_outcome now top en idl) as Hout.
  destruct (checkTimeLineEntry now top en idl) as [[[en' idl'] f] x].
  pose proof (EntryOutcome_disjoint _ _ _ _ _ _ _ _ Hout Hk) as Hk'.
  destruct x; [by apply IH|done].
Qed.

Lemma checkTimeLine_disjoint now (s : State) :
  disjointMaps (mapsOf s) → disjointMaps (mapsOf (checkTimeLine now s).1).
Proof.
  intros Hk. unfold checkTimeLine. destruct (mTimeLine s) as [|top tl] eqn:Etl; [done|].
  destruct (now <? time top); [done|].
  pose proof (checkTimeLineLoop_disjoint now (top :: tl) _ _ false Hk) as H.
  by destruct (checkTimeLineLoop now (top :: tl) _ _ false) as [m r].
Qed.

(** X5.  A pass of [doWork] keeps the Enabled and the Idle map disjoint (no
    scheme ID is in both), provided the pending scheme list, if there is one,
    names each scheme ID once. *)
Theorem doWorkPass_disjointMaps updateTime checkTime initial (s : State) :
  (∀ csl, mCollectionSchemeList s = Some csl →
          NoDup (getCollectionSchemeID <$> getCollectionSchemes csl)) →
  disjointMaps (mapsOf s) →
  disjointMaps (mapsOf (doWorkPass updateTime checkTime initial s).1).
Proof.
  intros Hnd Hk. rewrite doWorkPass_unfold. cbv zeta.
  set (r1 := if mProcessDecoderManifest s then _ else _).
  assert (disjointMaps (mapsOf r1.1) ∧ mCollectionSchemeList r1.1 = mCollectionSchemeList s)
    as [H1 Hl1].
  { subst r1. destruct (mProcessDecoderManifest s); [|done].
    by destruct (processDecoderManifest_maps
                   (setProcessFlags (mProcessCollectionScheme s) false s)) as (-> & -> & _). }
  set (r2 := if mProcessCollectionScheme r1.1 then _ else _).
  assert (disjointMaps (mapsOf r2.1)) as H2.
  { subst r2. destruct (mProcessCollectionScheme r1.1); [|done].
    apply processCollectionScheme_disjoint; [|done]. simpl. by rewrite Hl1. }
  pose proof (checkTimeLine_disjoint checkTime r2.1 H2) as H3.
  simpl. repeat case_match; done.
Qed.

(** The rebuild of a list in which an ID repeats can put that ID in both
    maps: the hypothesis of X5 on the list is needed. *)
Example rebuild_repeated_id_in_both_maps :
  let s := (rebuildMapsandTimeLine 70
              (emptyState (Some (mkSchemeList true [schemeA; schemeA60])))).1 in
  mIdleCollectionSchemeMap s !! "A" = Some schemeA ∧
  mEnabledCollectionSchemeMap s !! "A" = Some schemeA60.
Proof. vm_compute. split; reflexivity. Qed.

(** *** The shape of the steps *)

Lemma processCollectionScheme_shape now (s : State) :
  (processCollectionScheme now s).1 = incrementError s ∨
  ∃ m csl, mCollectionSchemeList s = Some csl ∧ buildSchemes csl = true ∧
           (processCollectionScheme now s).1 = withMaps m (storeCollectionSchemeList s).
Proof.
  unfold processCollectionScheme.
  destruct (mCollectionSchemeList s) as [csl|] eqn:El; [|by left].
  destruct (buildSchemes csl) eqn:Eb; [|by left]. right. simpl.
  destruct (isCollectionSchemeLoaded _).
  - unfold updateMapsandTimeLine. simpl. rewrite El.
    destruct (fold_left _ _ _) as [[m r] ids]. simpl. eauto.
  - unfold rebuildMapsandTimeLine. simpl. rewrite El.
    destruct (fold_left _ _ _) as [m r]. simpl. eauto.
Qed.

Lemma checkTimeLine_shape now (s : State) :
  ∃ m, (checkTimeLine now s).1 = withMaps m s.
Proof.
  unfold checkTimeLine. destruct (mTimeLine s) as [|top tl] eqn:Etl.
  { exists (mapsOf s). by rewrite withMaps_mapsOf. }
  destruct (now <? time top).
  { exists (mapsOf s). by rewrite withMaps_mapsOf. }
  destruct (checkTimeLineLoop _ _ _ _ _) as [m r]. by exists m.
Qed.

Lemma checkTimeLine_not_due now (s : State) :
  (∀ e rest, mTimeLine s = e :: rest → now < time e) →
  checkTimeLine now s = (s, false).
Proof.
  intros H. unfold checkTimeLine. destruct (mTimeLine s) as [|e rest] eqn:E; [done|].
  assert ((now <? time e) = true) as -> by (apply Z.ltb_lt; eauto). done.
Qed.

(** *** Only documents that built are persisted *)

Lemma processDecoderManifest_persistedBuilt (s : State) :
  persistedBuilt s → persistedBuilt (processDecoderManifest s).1.
Proof.
  intros [Hd Hl]. unfold processDecoderManifest.
  destruct (mDecoderManifest s) as [dm|] eqn:Edm; [|done].
  destruct (buildManifest dm) eqn:Eb; [|done]. simpl.
  case_bool_decide; [done|]. split; simpl; [|done].
  rewrite ?Edm. by intros ? [= <-].
Qed.

Lemma processCollectionScheme_persistedBuilt now (s : State) :
  persistedBuilt s → persistedBuilt (processCollectionScheme now s).1.
Proof.
  intros [Hd Hl].
  destruct (processCollectionScheme_shape now s) as [->|(m & csl & El & Eb & ->)]; [done|].
  split; simpl; [done|]. rewrite ?El. by intros ? [= <-].
Qed.

(** X6.  A pass of [doWork] persists only documents that built: if every
    persisted document built before the pass, so it is after the pass,
    whatever is pending (missing documents and documents that fail to build
    included). *)
Theorem doWorkPass_persistedBuilt updateTime checkTime initial (s : State) :
  persistedBuilt s → persistedBuilt (doWorkPass updateTime checkTime initial s).1.
Proof.
  intros Hp. rewrite doWorkPass_unfold. cbv zeta.
  set (r1 := if mProcessDecoderManifest s then _ else _).
  assert (persistedBuilt r1.1) as H1.
  { subst r1. destruct (mProcessDecoderManifest s); [|done].
    by apply processDecoderManifest_persistedBuilt. }
  set (r2 := if mProcessCollectionScheme r1.1 then _ else _).
  assert (persistedBuilt r2.1) as H2.
  { subst r2. destruct (mProcessCollectionScheme r1.1); [|done].
    by apply processCollectionScheme_persistedBuilt. }
  destruct (checkTimeLine_shape checkTime r2.1) as [m ->].
  simpl. repeat case_match; done.
Qed.

Lemma doWorkPass_persistedBuilt_witness :
  persistedBuilt (doWorkPass 50 50 true stateStartBD).1.
Proof.
  apply doWorkPass_persistedBuilt. split; intros ? H; discriminate H.
Defined.

(** *** What a pass publishes *)

Lemma processDecoderManifest_flags (s : State) :
  mProcessDecoderManifest (processDecoderManifest s).1 = mProcessDecoderManifest s ∧
  mProcessCollectionScheme (processDecoderManifest s).1 = mProcessCollectionScheme s.
Proof. unfold processDecoderManifest. by repeat case_match. Qed.

(** X7.  A pass of [doWork] sends at most one checkin and notifies the
    scheme listeners at most once: the checkin exactly when a document or the
    Enabled map changed or the pass is the initial one, the notification
    exactly when something changed; both carry the data of the state the pass
    ends in. *)
Theorem doWorkPass_publishes updateTime checkTime initial (s : State) :
  let s' := (doWorkPass updateTime checkTime initial s).1 in
  let flags := (doWorkPass updateTime checkTime initial s).2 in
  let changed := decoderManifestChanged flags || enabledCollectionSchemeMapChanged flags in
  mCheckinSender s' =
    mCheckinSender s ++ (if changed || initial then [checkinMsg s'] else []) ∧
  mCollectionSchemeListChangeListeners s' =
    mCollectionSchemeListChangeListeners s ++
    (if changed then [activeCollectionSchemesOutput s'] else []).
Proof.
  rewrite doWorkPass_unfold. cbv zeta.
  set (r1 := if mProcessDecoderManifest s then _ else _).
  assert (mCheckinSender r1.1 = mCheckinSender s ∧
          mCollectionSchemeListChangeListeners r1.1 =
            mCollectionSchemeListChangeListeners s) as [Hc1 Hn1].
  { subst r1. destruct (mProcessDecoderManifest s); [|done].
    by destruct (processDecoderManifest_maps
                   (setProcessFlags (mProcessCollectionScheme s) false s))
      as (_ & _ & -> & ->). }
  set (r2 := if mProcessCollectionScheme r1.1 then _ else _).
  assert (mCheckinSender r2.1 = mCheckinSender s ∧
          mCollectionSchemeListChangeListeners r2.1 =
            mCollectionSchemeListChangeListeners s) as [Hc2 Hn2].
  { subst r2. destruct (mProcessCollectionScheme r1.1); [|done].
    destruct (processCollectionScheme_shape updateTime
                (setProcessFlags false (mProcessDecoderManifest r1.1) r1.1))
      as [->|(m & csl & _ & _ & ->)]; done. }
  destruct (checkTimeLine checkTime r2.1) as [s3 d3] eqn:E3.
  destruct (checkTimeLine_shape checkTime r2.1) as [m Hm]. rewrite E3 in Hm.
  simpl in Hm. subst s3. simpl.
  destruct (r1.2 || (if d3 then true else r2.2)); destruct initial; simpl;
    rewrite ?Hc2, ?Hn2, ?app_nil_r; done.
Qed.

(** X8.  When a pass of [doWork] has ended, another pass at the same clock
    with nothing new in the mailboxes changes nothing, publishes nothing and
    reports no change. *)
Theorem doWorkPass_quiescent updateTime updateTime' checkTime initial (s : State) :
  let s' := (doWorkPass updateTime checkTime initial s).1 in
  doWorkPass updateTime' checkTime false s' = (s', mkPassFlags false false).
Proof.
  intros s'.
  assert (mProcessDecoderManifest s' = false ∧ mProcessCollectionScheme s' = false ∧
          ∀ e rest, mTimeLine s' = e :: rest → checkTime < time e) as (Hd & Hc & Ht).
  { subst s'. rewrite doWorkPass_unfold. cbv zeta.
    set (r1 := if mProcessDecoderManifest s then _ else _).
    assert (mProcessDecoderManifest r1.1 = false) as Hd1.
    { subst r1. destruct (mProcessDecoderManifest s) eqn:E; [|done].
      by destruct (processDecoderManifest_flags
                     (setProcessFlags (mProcessCollectionScheme s) false s)) as [-> _]. }
    set (r2 := if mProcessCollectionScheme r1.1 then _ else _).
    assert (mProcessDecoderManifest r2.1 = false ∧ mProcessCollectionScheme r2.1 = false)
      as [Hd2 Hc2].
    { subst r2. destruct (mProcessCollectionScheme r1.1) eqn:E; [|done].
      destruct (processCollectionScheme_shape updateTime
                  (setProcessFlags false (mProcessDecoderManifest r1.1) r1.1))
        as [->|(m & csl & _ & _ & ->)]; done. }
    pose proof (checkTimeLine_top_not_due checkTime r2.1) as Ht.
    destruct (checkTimeLine checkTime r2.1) as [s3 d3] eqn:E3.
    destruct (checkTimeLine_shape checkTime r2.1) as [m Hm]. rewrite E3 in Hm.
    simpl in Hm. subst s3. simpl in *.
    repeat case_match; simpl; done. }
  rewrite doWorkPass_unfold. cbv zeta. rewrite Hd. simpl. rewrite Hc. simpl.
  rewrite (checkTimeLine_not_due checkTime s' Ht). done.
Qed.

(** ** What a rebuild puts on the time line *)

Lemma elem_of_push e e' tl : e' ∈ push e tl ↔ e' = e ∨ e' ∈ tl.
Proof. rewrite push_perm. apply elem_of_cons. Qed.

Lemma rebuildScheme_timeLine now m r c :
  (∀ e, e ∈ timeLine m → e ∈ timeLine (rebuildScheme now (m, r) c).1) ∧
  (now < getStartTime c →
     mkTimeData (getStartTime c) (getCollectionSchemeID c)
       ∈ timeLine (rebuildScheme now (m, r) c).1 ∧
     mkTimeData (getExpiryTime c) (getCollectionSchemeID c)
       ∈ timeLine (rebuildScheme now (m, r) c).1) ∧
  (getStartTime c ≤ now < getExpiryTime c →
     mkTimeData (getExpiryTime c) (getCollectionSchemeID c)
       ∈ timeLine (rebuildScheme now (m, r) c).1).
Proof.
  unfold rebuildScheme.
  destruct (now <? getStartTime c) eqn:E1; [|destruct (now <? getExpiryTime c) eqn:E2];
    simpl; rewrite ?elem_of_push; split_and!; intros; rewrite ?elem_of_push;
    auto; lia.
Qed.

Lemma rebuild_fold_timeLine now l : ∀ m r,
  (∀ e, e ∈ timeLine m → e ∈ timeLine (fold_left (rebuildScheme now) l (m, r)).1) ∧
  (∀ c, c ∈ l →
     (now < getStartTime c →
        mkTimeData (getStartTime c) (getCollectionSchemeID c)
          ∈ timeLine (fold_left (rebuildScheme now) l (m, r)).1 ∧
        mkTimeData (getExpiryTime c) (getCollectionSchemeID c)
          ∈ timeLine (fold_left (rebuildScheme now) l (m, r)).1) ∧
     (getStartTime c ≤ now < getExpiryTime c →
        mkTimeData (getExpiryTime c) (getCollectionSchemeID c)
          ∈ timeLine (fold_left (rebuildScheme now) l (m, r)).1)).
Proof.
  induction l as [|c1 l IH]; intros m r; cbn [fold_left].
  - split; [done|]. intros c Hc. by apply elem_of_nil in Hc.
  - pose proof (rebuildScheme_timeLine now m r c1) as (Hk & Hi & He).
    destruct (rebuildScheme now (m, r) c1) as [m1 r1]. simpl in *.
    destruct (IH m1 r1) as [IHk IHc]. split; [by auto|].
    intros c Hc. apply elem_of_cons in Hc as [->|Hc]; [|by apply IHc].
    split; intros Ht.
    + destruct (Hi Ht). split; by apply IHk.
    + by apply IHk, He.
Qed.

(** X9.  [rebuildMapsandTimeLine] keeps every entry of the heap and schedules
    every scheme it loads: for a scheme of the list that has not started, its
    start and its expiry are on the heap; for a scheme that is running, its
    expiry is. *)
Theorem rebuildMapsandTimeLine_schedules now (s : State) (csl : ICollectionSchemeList) :
  mCollectionSchemeList s = Some csl →
  let tl := mTimeLine (rebuildMapsandTimeLine now s).1 in
  (∀ e, e ∈ mTimeLine s → e ∈ tl) ∧
  (∀ c, c ∈ getCollectionSchemes csl →
     (now < getStartTime c →
        mkTimeData (getStartTime c) (getCollectionSchemeID c) ∈ tl ∧
        mkTimeData (getExpiryTime c) (getCollectionSchemeID c) ∈ tl) ∧
     (getStartTime c ≤ now < getExpiryTime c →
        mkTimeData (getExpiryTime c) (getCollectionSchemeID c) ∈ tl)).
Proof.
  intros Hl tl. subst tl. unfold rebuildMapsandTimeLine. rewrite Hl.
  pose proof (rebuild_fold_timeLine now (getCollectionSchemes csl) (mapsOf s) false) as H.
  by destruct (fold_left _ _ _) as [m r].
Qed.

Lemma rebuildMapsandTimeLine_schedules_witness :
  mkTimeData 100 "A" ∈ mTimeLine (rebuildMapsandTimeLine 50 stateABC).1 ∧
  mkTimeData 200 "B" ∈ mTimeLine (rebuildMapsandTimeLine 50 stateABC).1.
Proof.
  destruct (rebuildMapsandTimeLine_schedules 50 stateABC
              (mkSchemeList true [schemeA; schemeB; schemeC]) eq_refl) as [_ H].
  split.
  - apply (H schemeA); [apply elem_of_cons; by left|simpl; lia].
  - apply (H schemeB); [apply elem_of_cons; right; apply elem_of_cons; by left
                       |simpl; lia].
Defined.

(** ** An update with times that are past *)

(** Where the fold of [updateMapsandTimeLine] leaves the ID of a scheme of a
    list without repeated IDs: where [updateScheme] for that scheme leaves
    it, from maps that hold under this ID what the maps held at the start. *)
Lemma update_fold_at now l : ∀ m r (ids : gset string) c,
  NoDup (getCollectionSchemeID <$> l) → c ∈ l →
  ∃ m0 r0 (ids0 : gset string),
    enabled m0 !! getCollectionSchemeID c = enabled m !! getCollectionSchemeID c ∧
    idle m0 !! getCollectionSchemeID c = idle m !! getCollectionSchemeID c ∧
    enabled (fold_left (updateScheme now) l (m, r, ids)).1.1 !! getCollectionSchemeID c =
      enabled (updateScheme now (m0, r0, ids0) c).1.1 !! getCollectionSchemeID c ∧
    idle (fold_left (updateScheme now) l (m, r, ids)).1.1 !! getCollectionSchemeID c =
      idle (updateScheme now (m0, r0, ids0) c).1.1 !! getCollectionSchemeID c.
Proof.
  induction l as [|c1 l IH]; intros m r ids c Hnd Hin; [by apply elem_of_nil in Hin|].
  rewrite fmap_cons in Hnd. apply NoDup_cons in Hnd as [Hfresh Hnd].
  cbn [fold_left]. apply elem_of_cons in Hin as [->|Hin].
  - exists m, r, ids. split; [done|]. split; [done|].
    destruct (updateScheme now (m, r, ids) c1) as [[m1 r1] ids1].
    by destruct (update_fold_other now l m1 r1 ids1 _ Hfresh) as [-> ->].
  - assert (getCollectionSchemeID c1 ≠ getCollectionSchemeID c) as Hne.
    { intros Heq. apply Hfresh. rewrite Heq. by apply list_elem_of_fmap_2. }
    pose proof (updateScheme_other now m r ids c1 _ Hne) as [H1 H2].
    destruct (updateScheme now (m, r, ids) c1) as [[m1 r1] ids1].
    destruct (IH m1 r1 ids1 c Hnd Hin) as (m0 & r0 & ids0 & He & Hi & Hfe & Hfi).
    exists m0, r0, ids0. simpl in H1, H2. rewrite He, Hi, H1, H2. done.
Qed.

(** X10.  [updateMapsandTimeLine] with a list without repeated IDs, for a
    scheme of the list whose expiry time is past: when the ID is in neither
    map the scheme is not loaded; when the ID is in the Idle map (and the new
    start time is past as well) the Idle map keeps the ID, now with the new
    scheme, and the Enabled map does not get it. *)
Theorem updateMapsandTimeLine_past_times now (s : State) (csl : ICollectionSchemeList)
    (c : ICollectionScheme) :
  mCollectionSchemeList s = Some csl →
  NoDup (getCollectionSchemeID <$> getCollectionSchemes csl) →
  c ∈ getCollectionSchemes csl →
  getStartTime c ≤ now → getExpiryTime c ≤ now →
  mEnabledCollectionSchemeMap s !! getCollectionSchemeID c = None →
  let s' := (updateMapsandTimeLine now s).1 in
  mEnabledCollectionSchemeMap s' !! getCollectionSchemeID c = None ∧
  (mIdleCollectionSchemeMap s !! getCollectionSchemeID c = None →
     mIdleCollectionSchemeMap s' !! getCollectionSchemeID c = None) ∧
  (is_Some (mIdleCollectionSchemeMap s !! getCollectionSchemeID c) →
     mIdleCollectionSchemeMap s' !! getCollectionSchemeID c = Some c).
Proof.
  intros Hl Hnd Hc Hs Hx He s'. subst s'.
  destruct (updateMapsandTimeLine_unfold now s csl Hl) as (-> & -> & _).
  assert (getCollectionSchemeID c ∈
            (fold_left (updateScheme now) (getCollectionSchemes csl)
               (mapsOf s, false, ∅)).2) as Hin.
  { rewrite update_fold_ids, union_empty_r_L, elem_of_list_to_set.
    by apply list_elem_of_fmap_2. }
  rewrite !keepListed_lookup, !decide_True by done.
  destruct (update_fold_at now _ (mapsOf s) false ∅ c Hnd Hc)
    as (m0 & r0 & ids0 & He0 & Hi0 & -> & ->).
  simpl in He0, Hi0. rewrite He in He0.
  unfold updateScheme. rewrite He0.
  assert ((getStartTime c <=? now) = true) as E1 by lia.
  assert ((now <? getExpiryTime c) = false) as E2 by lia.
  assert ((now <? getStartTime c) = false) as E3 by lia.
  destruct (idle m0 !! getCollectionSchemeID c) as [cur|] eqn:Ei;
    rewrite E1, E2, E3; simpl; rewrite <- Hi0.
  - split_and!; [done|done|]. intros _. by rewrite lookup_insert_eq.
  - split_and!; [done|done|]. by intros [? ?].
Qed.

Lemma updateMapsandTimeLine_past_times_witness :
  mEnabledCollectionSchemeMap
    (updateMapsandTimeLine 50
       (updateAvailable (Some (mkSchemeList true [schemeC])) None stateIdleA)).1 !! "C"
    = None ∧
  mIdleCollectionSchemeMap
    (updateMapsandTimeLine 50
       (updateAvailable (Some (mkSchemeList true [schemeC])) None stateIdleA)).1 !! "C"
    = None.
Proof.
  destruct (updateMapsandTimeLine_past_times 50
              (updateAvailable (Some (mkSchemeList true [schemeC])) None stateIdleA)
              (mkSchemeList true [schemeC]) schemeC)
    as (H1 & H2 & _); try reflexivity.
  - apply NoDup_singleton.
  - apply elem_of_cons. by left.
  - simpl. lia.
  - simpl. lia.
  - split; [exact H1|]. apply H2. reflexivity.
Defined.

Lemma checkTimeLine_settles_witness :
  mTimeLine (checkTimeLine 100 stateIdleA).1 = [mkTimeData 200 "A"] ∧ 100 < 200.
Proof.
  destruct (checkTimeLine_settles 100 stateIdleA) as [H _].
  split; [reflexivity|]. apply (H (mkTimeData 200 "A") []). reflexivity.
Defined.

Lemma checkTimeLine_false_iff_unchanged_witness :
  (checkTimeLine 70 stateIdleA).2 = false.
Proof.
  apply (checkTimeLine_false_iff_unchanged 70 stateIdleA). split; reflexivity.
Defined.

Lemma doWorkPass_keyedByID_witness :
  keyedByID (mapsOf (doWorkPass 50 50 true stateStartBD).1).
Proof.
  apply doWorkPass_keyedByID. split; apply map_Forall_empty.
Defined.

Lemma doWorkPass_disjointMaps_witness :
  disjointMaps (mapsOf (doWorkPass 50 50 true stateStartBD).1).
Proof.
  apply doWorkPass_disjointMaps.
  - intros csl [= <-]. apply (bool_decide_unpack _). vm_compute. exact I.
  - intros k. left. apply lookup_empty.
Defined.

Lemma doWorkPass_publishes_witness :
  mCheckinSender (doWorkPass 50 50 true stateStartB).1 =
    [checkinMsg (doWorkPass 50 50 true stateStartB).1].
Proof.
  destruct (doWorkPass_publishes 50 50 true stateStartB) as [H _]. exact H.
Defined.

Lemma doWorkPass_quiescent_witness :
  doWorkPass 60 50 false (doWorkPass 50 50 true stateStartBD).1 =
  ((doWorkPass 50 50 true stateStartBD).1, mkPassFlags false false).
Proof. apply (doWorkPass_quiescent 50 60 50 true stateStartBD). Defined.

End PolicyManagerMore.

(* ===================================================================== *)
(** * Further properties of the OBD module                                *)
(* ===================================================================== *)

Section OBDMore.
Import OBDOverCANModule Examples.

(** ** Transmit identifiers *)

Lemma lor_template_byte (b : Z) :
  0 ≤ b < 256 → Z.lor 0x18DA00F1 (Z.shiftl b 8) = 0x18DA00F1 + 256 * b.
Proof.
  intros Hb.
  assert (b ∈ seqZ 0 256) as Hin by (apply elem_of_seqZ; lia).
  assert (Forall (λ b, Z.lor 0x18DA00F1 (Z.shiftl b 8) = 0x18DA00F1 + 256 * b)
            (seqZ 0 256)) as Hall.
  { apply (bool_decide_unpack _). vm_compute. exact I. }
  rewrite Forall_forall in Hall. by apply Hall.
Qed.

Lemma land_byte_extended (rx : Z) :
  0x18DAF100 ≤ rx ≤ 0x18DAF1FF → Z.land rx 0xFF = rx - 0x18DAF100.
Proof.
  intros H. change 0xFF with (Z.ones 8). rewrite Z.land_ones by lia.
  symmetry. apply (Z.mod_unique_pos _ _ 0x18DAF1). { lia. } lia.
Qed.

(** [getTxIDByRxID] on the rx IDs that discovery accepts, without bit
    operations. *)
Lemma getTxIDByRxID_valid (isExtendedID : bool) (rx : Z) :
  smallestCANId isExtendedID ≤ rx ≤ biggestCANId isExtendedID →
  getTxIDByRxID isExtendedID rx =
    if isExtendedID then 0x18DA00F1 + 256 * (rx - 0x18DAF100) else rx - 8.
Proof.
  unfold smallestCANId, biggestCANId, LOWEST_ECU_EXTENDED_RX_ID,
    HIGHEST_ECU_EXTENDED_RX_ID, LOWEST_ECU_RX_ID, HIGHEST_ECU_RX_ID.
  destruct isExtendedID; intros H.
  - rewrite getTxIDByRxID_extended, land_byte_extended by done.
    rewrite lor_template_byte by lia. done.
  - rewrite getTxIDByRxID_standard by lia. done.
Qed.

(** X11.  On the rx IDs that discovery accepts [getTxIDByRxID] is one-to-one:
    with 11-bit addressing the tx ID is [rx - 8], in [0x7E0, 0x7E7], and with
    29-bit addressing it is [0x18DA00F1 + 256 * (rx - 0x18DAF100)], without
    wrap-around and without bits of the template being overwritten. *)
Theorem getTxIDByRxID_one_to_one (isExtendedID : bool) (rx1 rx2 : Z) :
  smallestCANId isExtendedID ≤ rx1 ≤ biggestCANId isExtendedID →
  smallestCANId isExtendedID ≤ rx2 ≤ biggestCANId isExtendedID →
  (getTxIDByRxID isExtendedID rx1 = getTxIDByRxID isExtendedID rx2 → rx1 = rx2) ∧
  (getTxIDByRxID isExtendedID rx1 =
     if isExtendedID then 0x18DA00F1 + 256 * (rx1 - 0x18DAF100) else rx1 - 8) ∧
  (isExtendedID = false → 0x7E0 ≤ getTxIDByRxID isExtendedID rx1 ≤ 0x7E7).
Proof.
  intros H1 H2. rewrite !getTxIDByRxID_valid by done.
  unfold smallestCANId, biggestCANId, LOWEST_ECU_EXTENDED_RX_ID,
    HIGHEST_ECU_EXTENDED_RX_ID, LOWEST_ECU_RX_ID, HIGHEST_ECU_RX_ID in *.
  destruct isExtendedID; split_and!; try done; lia.
Qed.

Lemma getTxIDByRxID_one_to_one_witness :
  getTxIDByRxID true 0x18DAF159 = 0x18DA00F1 + 256 * (0x18DAF159 - 0x18DAF100).
Proof.
  apply (getTxIDByRxID_one_to_one true 0x18DAF159 0x18DAF159);
    unfold smallestCANId, biggestCANId, LOWEST_ECU_EXTENDED_RX_ID,
      HIGHEST_ECU_EXTENDED_RX_ID; lia.
Defined.



(** ** The time budget of [flush] *)

Lemma flushECU_budgets (ecuFlush : Z → Z) (count : nat) : ∀ timeLeftMs,
  (∀ t, 0 ≤ ecuFlush t) → 0 ≤ timeLeftMs →
  Forall (λ b, 0 ≤ b ≤ timeLeftMs) (flushECU ecuFlush count timeLeftMs).1 ∧
  0 ≤ (flushECU ecuFlush count timeLeftMs).2 ≤ timeLeftMs ∧
  length (flushECU ecuFlush count timeLeftMs).1 = count.
Proof.
  induction count as [|n IH]; intros t Hf Ht; cbn [flushECU].
  - simpl. split_and!; [constructor|lia|lia|done].
  - set (t' := if t <=? ecuFlush t then 0 else t - ecuFlush t).
    assert (0 ≤ t' ≤ t) as Ht'.
    { subst t'. specialize (Hf t). destruct (t <=? ecuFlush t) eqn:E; lia. }
    destruct (IH t' Hf (proj1 Ht')) as (Hb & Hl & Hn).
    destruct (flushECU ecuFlush n t') as [budgets remaining]. simpl in *.
    split_and!; [|lia|lia|by rewrite Hn].
    constructor; [lia|]. eapply Forall_impl; [exact Hb|]. simpl. intros; lia.
Qed.

Lemma flushECUs_calls (mECUs : list (Z → Z)) :
  ∀ index exceptECU count timeLeftMs,
  Forall (λ ecu, ∀ t, 0 ≤ ecu t) mECUs → 0 ≤ timeLeftMs →
  Forall (λ call, call.1 ≠ exceptECU ∧ (index ≤ call.1)%nat ∧ 0 ≤ call.2 ≤ timeLeftMs)
    (flushECUs mECUs index exceptECU count timeLeftMs).
Proof.
  induction mECUs as [|ecu rest IH]; intros index exceptECU count t Hf Ht;
    cbn [flushECUs]; [constructor|].
  apply Forall_cons in Hf as [Hecu Hrest].
  case_bool_decide as Hex.
  - eapply Forall_impl; [apply (IH (S index) exceptECU count t Hrest Ht)|].
    simpl. intros call (? & ? & ?). split_and!; [done|lia|lia..].
  - destruct (flushECU_budgets ecu count t Hecu Ht) as (Hb & Hl & _).
    destruct (flushECU ecu count t) as [budgets remaining]. simpl in *.
    apply Forall_app. split.
    + apply Forall_fmap. eapply Forall_impl; [exact Hb|]. simpl. intros b ?.
      split_and!; [done|lia|lia..].
    + eapply Forall_impl; [apply (IH (S index) exceptECU count remaining Hrest)|];
        [lia|]. simpl. intros call (? & ? & ?). split_and!; [done|lia|lia..].
Qed.

(** X13.  [flush] does nothing unless requests are broadcast.  When they are,
    and every ECU reports a time needed that is not negative, the ECU that
    sent the request is never flushed and every budget handed to another ECU
    lies between 0 and [P2_TIMEOUT_DEFAULT_MS]: the time left never
    underflows. *)
Theorem flush_budget (mBroadcastRequests : bool) (mECUs : list (Z → Z))
    (count exceptECU : nat) :
  (mBroadcastRequests = false → flush mBroadcastRequests mECUs count exceptECU = []) ∧
  (Forall (λ ecu, ∀ t, 0 ≤ ecu t) mECUs →
   Forall (λ call, call.1 ≠ exceptECU ∧ 0 ≤ call.2 ≤ P2_TIMEOUT_DEFAULT_MS)
     (flush mBroadcastRequests mECUs count exceptECU)).
Proof.
  unfold flush. split; [by intros ->|]. intros Hf.
  destruct mBroadcastRequests; simpl; [|constructor].
  eapply Forall_impl;
    [apply (flushECUs_calls mECUs 0%nat exceptECU count P2_TIMEOUT_DEFAULT_MS Hf)|].
  - unfold P2_TIMEOUT_DEFAULT_MS. lia.
  - simpl. intros call (? & _ & ?). done.
Qed.

Lemma flush_budget_witness :
  flush true [λ t, 30; λ t, 80; λ t, 50] 1 0 = [(1%nat, 100); (2%nat, 20)] ∧
  Forall (λ call, call.1 ≠ 0%nat ∧ 0 ≤ call.2 ≤ P2_TIMEOUT_DEFAULT_MS)
    (flush true [λ t, 30; λ t, 80; λ t, 50] 1 0).
Proof.
  split; [reflexivity|].
  apply (flush_budget true [λ t, 30; λ t, 80; λ t, 50] 1 0).
  repeat constructor; lia.
Defined.

(** ** The wait of the acquisition loop *)

(** X14.  At the end of a turn of the acquisition loop, with timers that read
    no negative time: the loop skips the wait exactly when a request with a
    non-zero interval is overdue, and otherwise it never waits beyond the
    moment the next request with a non-zero interval is due. *)
Theorem nextWait_not_late (m : Module) (pidElapsedMs dtcElapsedMs : Z) :
  0 ≤ pidElapsedMs → 0 ≤ dtcElapsedMs →
  (nextWait m pidElapsedMs dtcElapsedMs = None ↔
     (0 < mPIDRequestIntervalSeconds m ∧
      mPIDRequestIntervalSeconds m * 1000 < pidElapsedMs) ∨
     (0 < mDTCRequestIntervalSeconds m ∧
      mDTCRequestIntervalSeconds m * 1000 < dtcElapsedMs)) ∧
  (∀ w, nextWait m pidElapsedMs dtcElapsedMs = Some w →
     0 ≤ w ∧
     (0 < mPIDRequestIntervalSeconds m →
        w ≤ mPIDRequestIntervalSeconds m * 1000 - pidElapsedMs) ∧
     (0 < mDTCRequestIntervalSeconds m →
        w ≤ mDTCRequestIntervalSeconds m * 1000 - dtcElapsedMs)).
Proof.
  intros Hp Hd. unfold nextWait, calcSleepTime, INT64_MAX.
  set (p := mPIDRequestIntervalSeconds m). set (d := mDTCRequestIntervalSeconds m).
  set (sp := if 0 <? p
             then if p * 1000 - pidElapsedMs <? 2 ^ 63 - 1
                  then p * 1000 - pidElapsedMs else 2 ^ 63 - 1
             else 2 ^ 63 - 1).
  set (sd := if 0 <? d
             then if d * 1000 - dtcElapsedMs <? sp then d * 1000 - dtcElapsedMs else sp
             else sp).
  assert (sp ≤ 2 ^ 63 - 1 ∧ (0 < p → sp ≤ p * 1000 - pidElapsedMs) ∧
          (sp < 0 ↔ 0 < p ∧ p * 1000 < pidElapsedMs)) as (Hsp1 & Hsp2 & Hsp3).
  { subst sp. destruct (0 <? p) eqn:E0;
      [destruct (p * 1000 - pidElapsedMs <? 2 ^ 63 - 1) eqn:E1|]; lia. }
  assert (sd ≤ sp ∧ (0 < d → sd ≤ d * 1000 - dtcElapsedMs) ∧
          (sd < 0 ↔ sp < 0 ∨ (0 < d ∧ d * 1000 < dtcElapsedMs))) as (Hsd1 & Hsd2 & Hsd3).
  { subst sd. destruct (0 <? d) eqn:E0;
      [destruct (d * 1000 - dtcElapsedMs <? sp) eqn:E1|]; lia. }
  destruct (sd <? 0) eqn:Eneg.
  - split; [|by intros w [=]]. split; [intros _|done]. lia.
  - split.
    + split; [done|]. intros H. exfalso. lia.
    + intros w [= <-]. unfold wrap32.
      pose proof (Z.mod_pos_bound sd (2 ^ 32) ltac:(lia)).
      pose proof (Z.mod_le sd (2 ^ 32) ltac:(lia) ltac:(lia)). lia.
Qed.

Lemma nextWait_not_late_witness :
  nextWait modulePID1 400 0 = Some 600 ∧ 600 ≤ 1 * 1000 - 400.
Proof.
  split; [reflexivity|].
  destruct (nextWait_not_late modulePID1 400 0) as [_ H]; [lia|lia|].
  destruct (H 600 eq_refl) as (_ & Hw & _). apply Hw. simpl. lia.
Defined.

(** ** What the worker never requests *)







End OBDMore.

(* ===================================================================== *)
(** * Further properties of the CAN reader                                *)
(* ===================================================================== *)

Section CANReaderMore.
Import CANDataSource Examples.

(** ** What reaches the consumer *)

Lemma processFrames_delivered (frames : list Frame) (st : State) :
  ∃ delivered,
    (delivered = [] ∨ delivered = frames) ∧
    wokeUpFromSleep (fold_left processFrame frames st) = wokeUpFromSleep st ∧
    mConsumer (fold_left processFrame frames st) = mConsumer st ++ delivered ∧
    mReceivedMessages (fold_left processFrame frames st) =
      mReceivedMessages st + Z.of_nat (length delivered).
Proof.
  destruct (wokeUpFromSleep st) eqn:Hw.
  - exists []. rewrite processFrames_woken by done.
    rewrite app_nil_r. simpl. split_and!; auto; lia.
  - exists frames. destruct (processFrames_awake frames st Hw) as (H1 & H2 & H3).
    split_and!; auto.
Qed.

Lemma doWorkTurn_delivered (st : State) (t : Turn) :
  ∃ delivered,
    delivered `sublist_of` framesOf (received t) ∧
    mConsumer (doWorkTurn st t).1 = mConsumer st ++ delivered ∧
    mReceivedMessages (doWorkTurn st t).1 =
      mReceivedMessages st + Z.of_nat (length delivered).
Proof.
  unfold doWorkTurn.
  set (st1 := if dictionaryIsNull t then setWokeUp true st else st).
  assert (mConsumer st1 = mConsumer st ∧ mReceivedMessages st1 = mReceivedMessages st)
    as [Hc Hr] by (subst st1; by destruct (dictionaryIsNull t)).
  destruct (processFrames_delivered (framesOf (received t)) st1)
    as (delivered & Hd & _ & Hc2 & Hr2).
  assert (delivered `sublist_of` framesOf (received t)) as Hsub.
  { destruct Hd as [->| ->]; [apply sublist_nil_l|done]. }
  assert (∀ b : bool,
            mConsumer (if b then setWokeUp false
                                   (fold_left processFrame (framesOf (received t)) st1)
                       else fold_left processFrame (framesOf (received t)) st1) =
              mConsumer st ++ delivered ∧
            mReceivedMessages (if b then setWokeUp false
                                   (fold_left processFrame (framesOf (received t)) st1)
                       else fold_left processFrame (framesOf (received t)) st1) =
              mReceivedMessages st + Z.of_nat (length delivered)) as Hfin.
  { intros b. destruct b; simpl; by rewrite Hc2, Hr2, Hc, Hr. }
  destruct (received t) as [e|frames] eqn:Er.
  - destruct e.
    + exists []. simpl. rewrite app_nil_r, Hc, Hr. split_and!; [done|done|lia].
    + exists delivered. cbv beta iota. cbn [fst]. split; [done|]. apply Hfin.
    + exists delivered. cbv beta iota. cbn [fst]. split; [done|]. apply Hfin.
    + exists delivered. cbv beta iota. cbn [fst]. split; [done|]. apply Hfin.
  - exists delivered. cbv beta iota. cbn [fst]. split; [done|]. apply Hfin.
Qed.

(** X16.  Whatever the turns of the loop bring, the frames handed to the
    consumer are frames that were received, in the order in which they were
    received, each at most once; and the counter of received messages is the
    number of frames handed to the consumer. *)
Theorem consumer_gets_received_frames_in_order (turns : list Turn) :
  mConsumer (doWork turns) `sublist_of` concat ((λ t, framesOf (received t)) <$> turns) ∧
  mReceivedMessages (doWork turns) = Z.of_nat (length (mConsumer (doWork turns))).
Proof.
  assert (∀ st, ∃ delivered,
            delivered `sublist_of` concat ((λ t, framesOf (received t)) <$> turns) ∧
            mConsumer (doWorkFrom st turns) = mConsumer st ++ delivered ∧
            mReceivedMessages (doWorkFrom st turns) =
              mReceivedMessages st + Z.of_nat (length delivered)) as H.
  { induction turns as [|t turns IH]; intros st.
    - exists []. simpl. rewrite app_nil_r. split_and!; [done|done|lia].
    - cbn [doWorkFrom fmap list_fmap concat].
      destruct (doWorkTurn_delivered st t) as (d1 & Hs1 & Hc1 & Hr1).
      destruct (doWorkTurn st t) as [st' continue]. simpl in *.
      destruct continue.
      + destruct (IH st') as (d2 & Hs2 & Hc2 & Hr2). exists (d1 ++ d2).
        rewrite Hc2, Hr2, Hc1, Hr1, length_app, <- app_assoc.
        split_and!; [by apply sublist_app|done|lia].
      + exists d1. split_and!; [by apply sublist_inserts_r|done|done]. }
  destruct (H initialState) as (delivered & Hs & Hc & Hr).
  unfold doWork. rewrite Hc, Hr. simpl. split; [done|lia].
Qed.

(** ** Frames out of time order *)

Lemma processFrames_descents (frames : list Frame) : ∀ st,
  wokeUpFromSleep st = false →
  notTimeMonotonicFrames (fold_left processFrame frames st) =
    notTimeMonotonicFrames st + descents (lastFrameTime st) frames ∧
  lastFrameTime (fold_left processFrame frames st) =
    lastTimestamp (lastFrameTime st) frames.
Proof.
  induction frames as [|f frames IH]; intros st Hw; simpl.
  - split; [lia|done].
  - unfold processFrame at 2 4. rewrite Hw. simpl.
    match goal with |- context [fold_left processFrame frames ?s] =>
      destruct (IH s eq_refl) as [H1 H2] end.
    simpl in *. rewrite H1, H2. split; [|done].
    destruct (timestamp f <? lastFrameTime st); lia.
Qed.

(** X17.  A turn that runs with a dictionary while the reader is not draining
    hands every frame of its batch to the consumer, also the frames whose
    time stamp lies before the one of the frame before them; these are
    counted in [NOT_TIME_MONOTONIC_FRAMES], and the last time stamp seen is
    the one of the last frame. *)
Theorem out_of_order_frames_processed_and_counted (st : State) (t : Turn) :
  wokeUpFromSleep st = false → dictionaryIsNull t = false →
  received t ≠ RecvError ENODEV →
  let st' := (doWorkTurn st t).1 in
  mConsumer st' = mConsumer st ++ framesOf (received t) ∧
  notTimeMonotonicFrames st' =
    notTimeMonotonicFrames st + descents (lastFrameTime st) (framesOf (received t)) ∧
  lastFrameTime st' = lastTimestamp (lastFrameTime st) (framesOf (received t)).
Proof.
  intros Hw Hd Hne st'. subst st'. unfold doWorkTurn. rewrite Hd.
  destruct (processFrames_awake (framesOf (received t)) st Hw) as (_ & Hc & _).
  destruct (processFrames_descents (framesOf (received t)) st Hw) as [Hn Hl].
  destruct (received t) as [[]|frames]; try done;
    simpl in *; destruct (_ <? _); simpl; rewrite ?Hc, ?Hn, ?Hl; done.
Qed.

Lemma out_of_order_frames_processed_and_counted_witness :
  mConsumer (doWorkTurn initialState
               (mkTurn false (RecvFrames [frame12; frame11]) false)).1
    = [frame12; frame11] ∧
  notTimeMonotonicFrames
    (doWorkTurn initialState (mkTurn false (RecvFrames [frame12; frame11]) false)).1 = 1.
Proof.
  destruct (out_of_order_frames_processed_and_counted initialState
              (mkTurn false (RecvFrames [frame12; frame11]) false))
    as (H1 & H2 & _); [reflexivity|reflexivity|discriminate|].
  split; [exact H1|exact H2].
Defined.

(** ** The end of the loop *)

(** X18.  The loop ends with the turn in which the interface is gone
    ([ENODEV]) or a stop is requested: no later turn has any effect; and in
    the [ENODEV] turn itself nothing is counted or handed to the consumer. *)
Theorem loop_ends_on_ENODEV_or_stop (st : State) (before : list Turn) (t : Turn)
    (later : list Turn) :
  received t = RecvError ENODEV ∨ stopRequested t = true →
  doWorkFrom st (before ++ t :: later) = doWorkFrom st (before ++ [t]) ∧
  (received t = RecvError ENODEV →
     mConsumer (doWorkFrom st (before ++ [t])) = mConsumer (doWorkFrom st before) ∧
     mReceivedMessages (doWorkFrom st (before ++ [t])) =
       mReceivedMessages (doWorkFrom st before)).
Proof.
  intros Hend. revert st. induction before as [|t0 before IH]; intros st.
  - cbn [app doWorkFrom].
    assert ((doWorkTurn st t).2 = false) as Hstop.
    { unfold doWorkTurn. destruct Hend as [-> | Hs]; [done|].
      destruct (received t) as [[]|frames]; by rewrite ?Hs. }
    destruct (doWorkTurn st t) as [st' continue] eqn:E. simpl in Hstop. subst continue.
    split; [done|]. intros Hr. unfold doWorkTurn in E. rewrite Hr in E.
    inversion E; subst. by destruct (dictionaryIsNull t).
  - rewrite <- !app_comm_cons. cbn [doWorkFrom].
    destruct (doWorkTurn st t0) as [st' continue]. destruct continue; [apply IH|].
    split; [done|]. intros _. done.
Qed.

Lemma loop_ends_on_ENODEV_or_stop_witness :
  mConsumer (doWork [mkTurn false (RecvFrames [frame11]) false;
                     mkTurn false (RecvError ENODEV) false;
                     mkTurn false (RecvFrames [frame12]) false]) = [frame11].
Proof.
  destruct (loop_ends_on_ENODEV_or_stop initialState
              [mkTurn false (RecvFrames [frame11]) false]
              (mkTurn false (RecvError ENODEV) false)
              [mkTurn false (RecvFrames [frame12]) false]) as [H1 H2]; [by left|].
  unfold doWork. simpl app in *. rewrite H1.
  destruct (H2 eq_refl) as [-> _]. reflexivity.
Defined.

(** ** Time stamps *)

Lemma readHeaders_result (ty : CanTimestampType) (msgHeader : list cmsghdr) : ∀ ts,
  fold_left (readHeader ty) msgHeader ts = ts ∨
  ∃ h, h ∈ msgHeader ∧ cmsg_type h = SO_TIMESTAMPING ∧
       fold_left (readHeader ty) msgHeader ts =
         toMilliseconds (match ty with
                         | KERNEL_HARDWARE_TIMESTAMP => ts2 h
                         | _ => ts0 h
                         end).
Proof.
  induction msgHeader as [|h hs IH]; intros ts; cbn [fold_left]; [by left|].
  destruct (IH (readHeader ty ts h)) as [->|(h' & Hin & Hty & ->)].
  - unfold readHeader. destruct (cmsg_type h =? SO_TIMESTAMPING) eqn:E; [|by left].
    destruct ty; [by left|right..]; exists h;
      (split_and!; [apply elem_of_cons; by left|lia|done]).
  - right. exists h'. split_and!; [apply elem_of_cons; by right|done|done].
Qed.

(** X19.  [extractTimestamp] answers with the system time when the time
    stamps are taken by polling, when no control message is of type
    [SO_TIMESTAMPING], and when the kernel time stamp it reads is zero; in
    every other case it answers with the milliseconds of a time stamping
    control message ([ts[2]] for hardware, [ts[0]] for software time stamps).
    So its answer is zero only if the system time is zero.  The last time
    stamping message decides. *)
Theorem extractTimestamp_fallback (ty : CanTimestampType) (msgHeader : list cmsghdr)
    (systemTimeSinceEpochMs : Z) :
  (ty = POLLING_TIME ∨ Forall (λ h, cmsg_type h ≠ SO_TIMESTAMPING) msgHeader →
     extractTimestamp ty msgHeader systemTimeSinceEpochMs = systemTimeSinceEpochMs) ∧
  (extractTimestamp ty msgHeader systemTimeSinceEpochMs = systemTimeSinceEpochMs ∨
   ∃ h, h ∈ msgHeader ∧ cmsg_type h = SO_TIMESTAMPING ∧
        extractTimestamp ty msgHeader systemTimeSinceEpochMs =
          toMilliseconds (match ty with
                          | KERNEL_HARDWARE_TIMESTAMP => ts2 h
                          | _ => ts0 h
                          end)) ∧
  (systemTimeSinceEpochMs ≠ 0 →
     extractTimestamp ty msgHeader systemTimeSinceEpochMs ≠ 0) ∧
  (∀ h, ty ≠ POLLING_TIME → cmsg_type h = SO_TIMESTAMPING →
     extractTimestamp ty (msgHeader ++ [h]) systemTimeSinceEpochMs =
     let ms := toMilliseconds (match ty with
                               | KERNEL_HARDWARE_TIMESTAMP => ts2 h
                               | _ => ts0 h
                               end) in
     if ms =? 0 then systemTimeSinceEpochMs else ms).
Proof.
  unfold extractTimestamp. split_and!.
  - intros [->|Hall]; [done|].
    assert (∀ ts, fold_left (readHeader ty) msgHeader ts = ts) as Hid.
    { induction Hall as [|h hs Hh Hall IH]; intros ts; [done|].
      cbn [fold_left]. rewrite IH. unfold readHeader.
      assert ((cmsg_type h =? SO_TIMESTAMPING) = false) as -> by lia. done. }
    rewrite Hid. by destruct ty.
  - destruct ty; [by left|..].
    + destruct (readHeaders_result KERNEL_SOFTWARE_TIMESTAMP msgHeader 0)
        as [->|(h & Hin & Hty & Heq)]; [by left|].
      rewrite Heq. destruct (_ =? 0); [by left|right; eauto].
    + destruct (readHeaders_result KERNEL_HARDWARE_TIMESTAMP msgHeader 0)
        as [->|(h & Hin & Hty & Heq)]; [by left|].
      rewrite Heq. destruct (_ =? 0); [by left|right; eauto].
  - intros Hclock.
    destruct ty; simpl; try done;
      destruct (_ =? 0) eqn:E; try done; lia.
  - intros h Hty Hh.
    destruct ty; [done|..]; rewrite fold_left_app; cbn [fold_left];
      unfold readHeader; rewrite Hh; reflexivity.
Qed.

Lemma extractTimestamp_fallback_witness :
  extractTimestamp KERNEL_SOFTWARE_TIMESTAMP
    [mkCmsghdr 1 (mkTimespec 9 0) (mkTimespec 9 0)] 1700000000000 = 1700000000000 ∧
  extractTimestamp KERNEL_SOFTWARE_TIMESTAMP
    [mkCmsghdr 37 (mkTimespec 1700000000 5000000) (mkTimespec 0 0)] 1
    = 1700000000005.
Proof.
  split.
  - apply extractTimestamp_fallback. right. repeat constructor. simpl. discriminate.
  - destruct (extractTimestamp_fallback KERNEL_SOFTWARE_TIMESTAMP [] 1)
      as (_ & _ & _ & H).
    apply (H (mkCmsghdr 37 (mkTimespec 1700000000 5000000) (mkTimespec 0 0)));
      [discriminate|reflexivity].
Defined.

Lemma consumer_gets_received_frames_in_order_witness :
  mReceivedMessages (doWork turnsAfterWake) =
  Z.of_nat (length (mConsumer (doWork turnsAfterWake))).
Proof. apply (consumer_gets_received_frames_in_order turnsAfterWake). Defined.

End CANReaderMore.

(* ===================================================================== *)
(** * Further properties of the sender worker and of the blob source*)
(* ===================================================================== *)

Section SenderMore.
Import DataSenderManagerWorkerThread Examples.

(** ** Queued data *)

Lemma processedData_app (a b : list Call) :
  processedData (a ++ b) = processedData a ++ processedData b.
Proof. unfold processedData. apply omap_app. Qed.

Lemma processedData_processData (data : list Z) :
  processedData (ProcessData <$> data) = data.
Proof.
  induction data as [|d data IH]; [done|].
  rewrite fmap_cons. unfold processedData in *. cbn [omap list_omap].
  by rewrite IH.
Qed.

Lemma doWorkTurn_calls interval (st : State) (t : Turn) :
  mDataSenderManager (doWorkTurn interval st t) =
  mDataSenderManager st ++ turnCalls interval st t.
Proof.
  rewrite turnCalls_unfold. unfold doWorkTurn.
  destruct (retryDue interval st t); destruct (isAlive t); simpl;
    rewrite <- ?app_assoc, ?app_nil_r; done.
Qed.

(** X20.  Everything the worker finds in its queues is handed to
    [processData] exactly once, turn by turn and queue by queue, in the order
    of the queues; nothing else is. *)
Theorem queued_data_processed_once_in_order interval startClock (turns : list Turn) :
  processedData (mDataSenderManager (doWork interval startClock turns)) =
  concat ((λ t, concat (queued t)) <$> turns).
Proof.
  unfold doWork.
  assert (∀ st, processedData
                  (mDataSenderManager (fold_left (doWorkTurn interval) turns st)) =
                processedData (mDataSenderManager st) ++
                concat ((λ t, concat (queued t)) <$> turns)) as H.
  { induction turns as [|t turns IH]; intros st; cbn [fold_left fmap list_fmap concat].
    - by rewrite app_nil_r.
    - rewrite IH, doWorkTurn_calls, turnCalls_unfold, !processedData_app,
        processedData_processData.
      destruct (_ && _); simpl; rewrite ?app_nil_r, <- ?app_assoc; done. }
  rewrite H. done.
Qed.

(** ** The first upload *)

Lemma doWorkTurn_uploaded interval (st : State) (t : Turn) :
  uploadedPersistedDataOnce (doWorkTurn interval st t) =
  uploadedPersistedDataOnce st || isAlive t.
Proof.
  unfold doWorkTurn, retryDue.
  destruct (uploadedPersistedDataOnce st); simpl;
    repeat (case_match; simpl); done.
Qed.

(** X21.  After any turns the flag [uploadedPersistedDataOnce] tells whether
    connectivity was alive in one of them; the stored payloads were asked for
    at most once per turn with connectivity alive, and at least once if there
    was such a turn. *)
Theorem uploaded_once_iff_alive_turn interval startClock (turns : list Turn) :
  let st := doWork interval startClock turns in
  uploadedPersistedDataOnce st = existsb isAlive turns ∧
  (retrievals (mDataSenderManager st) ≤ length (filter (λ t, isAlive t = true) turns))%nat ∧
  (existsb isAlive turns = true → (1 ≤ retrievals (mDataSenderManager st))%nat).
Proof.
  unfold doWork.
  assert (∀ st,
            let st' := fold_left (doWorkTurn interval) turns st in
            uploadedPersistedDataOnce st' =
              uploadedPersistedDataOnce st || existsb isAlive turns ∧
            (retrievals (mDataSenderManager st') ≤
               retrievals (mDataSenderManager st) +
               length (filter (λ t, isAlive t = true) turns))%nat ∧
            (retrievals (mDataSenderManager st) ≤ retrievals (mDataSenderManager st'))%nat ∧
            (uploadedPersistedDataOnce st = false → existsb isAlive turns = true →
               (retrievals (mDataSenderManager st) <
                retrievals (mDataSenderManager st'))%nat)) as H.
  { induction turns as [|t turns IH]; intros st; cbn [fold_left existsb].
    - simpl. rewrite orb_false_r. split_and!; [done|lia|lia|done].
    - specialize (IH (doWorkTurn interval st t)). cbv zeta in IH.
      destruct IH as (IH1 & IH2 & IH3 & IH4).
      rewrite doWorkTurn_uploaded in IH1, IH4.
      assert (retrievals (mDataSenderManager (doWorkTurn interval st t)) =
                (retrievals (mDataSenderManager st) +
                 (if retryDue interval st t && isAlive t then 1 else 0))%nat) as Hstep.
      { rewrite doWorkTurn_calls, turnCalls_unfold, !retrievals_app,
          retrievals_processData. by destruct (_ && _). }
      rewrite Hstep in IH2, IH3, IH4. rewrite filter_cons. cbv zeta.
      split_and!.
      + by rewrite IH1, orb_assoc.
      + destruct (isAlive t) eqn:Ea.
        * rewrite decide_True by done. simpl.
          destruct (retryDue interval st t); simpl in *; lia.
        * rewrite decide_False by done. rewrite andb_false_r in IH2. lia.
      + lia.
      + intros Hu Hex. unfold retryDue in *. rewrite Hu in *. simpl in *.
        destruct (isAlive t); simpl in *; [lia|].
        specialize (IH4 eq_refl Hex). lia. }
  cbv zeta. specialize (H (initialState startClock)). cbv zeta in H.
  destruct H as (H1 & H2 & _ & H4). simpl in *.
  split_and!; [done|done|]. intros Hex. specialize (H4 eq_refl Hex). lia.
Qed.

(** ** The wait *)

(** X22.  The wait at the top of the loop: with a zero retry interval the
    worker waits for a signal; with a non-zero interval below 2^32 and a timer
    that reads no negative time it waits what is left of the interval, never
    longer than the interval, and not at all once the interval has elapsed. *)
Theorem timeToWait_bounds interval (st : State) (clock : Z) :
  (interval = 0 → timeToWait interval st clock = None) ∧
  (0 < interval < 2 ^ 32 → 0 ≤ getElapsedMs st clock →
     ∃ w, timeToWait interval st clock = Some w ∧ 0 ≤ w ≤ interval ∧
          w = Z.max 0 (interval - getElapsedMs st clock)).
Proof.
  unfold timeToWait, UINT64_MAX. split.
  - intros ->. done.
  - intros Hi He.
    assert ((0 <? interval) = true) as -> by lia.
    set (e := getElapsedMs st clock) in *.
    assert (Z.min (2 ^ 64 - 1) (interval - Z.min e interval) =
            Z.max 0 (interval - e)) as -> by lia.
    assert ((Z.max 0 (interval - e) <? 2 ^ 64 - 1) = true) as -> by lia.
    exists (Z.max 0 (interval - e)). split_and!; [|lia|lia|done].
    f_equal. apply Z.mod_small. lia.
Qed.

Lemma timeToWait_bounds_witness :
  timeToWait 1000 (doWork 1000 0 [senderTurn1]) 400 = Some 610.
Proof.
  destruct (timeToWait_bounds 1000 (doWork 1000 0 [senderTurn1]) 400) as [_ H].
  destruct H as (w & Hw & _ & ->); [lia|vm_compute; discriminate|].
  exact Hw.
Defined.

Lemma uploaded_once_iff_alive_turn_witness :
  (1 ≤ retrievals (mDataSenderManager (doWork 0 0 [senderTurn1; senderTurn2])))%nat.
Proof.
  apply (uploaded_once_iff_alive_turn 0 0 [senderTurn1; senderTurn2]). reflexivity.
Defined.

Lemma queued_data_processed_once_in_order_witness :
  processedData
    (mDataSenderManager
       (doWork 1000 0 [mkTurn 0 10 [[1; 2]; [3]] false; mkTurn 10 20 [[4]] true]))
  = [1; 2; 3; 4].
Proof.
  apply (queued_data_processed_once_in_order 1000 0
           [mkTurn 0 10 [[1; 2]; [3]] false; mkTurn 10 20 [[4]] true]).
Defined.

End SenderMore.

Section BlobMore.
Import MyBlobDataSource.

Lemma size_bytes (size : Z) :
  0 ≤ size < 2 ^ 32 →
  toByte (Z.land size 0xFF) + 256 * toByte (Z.land (Z.shiftr size 8) 0xFF) +
  65536 * toByte (Z.land (Z.shiftr size 16) 0xFF) +
  16777216 * toByte (Z.land (Z.shiftr size 24) 0xFF) = size.
Proof.
  intros Hs. unfold toByte. change 0xFF with (Z.ones 8).
  rewrite !Z.land_ones, !Z.shiftr_div_pow2 by lia.
  rewrite !Z.mod_mod by lia.
  change (2 ^ 8) with 256. change (2 ^ 16) with (256 * 256).
  change (2 ^ 24) with (256 * 256 * 256).
  rewrite <- !Z.div_div by lia.
  pose proof (Z.div_mod size 256 ltac:(lia)).
  pose proof (Z.div_mod (size / 256) 256 ltac:(lia)).
  pose proof (Z.div_mod (size / 256 / 256) 256 ltac:(lia)).
  pose proof (Z.div_mod (size / 256 / 256 / 256) 256 ltac:(lia)).
  pose proof (Z.mod_pos_bound size 256 ltac:(lia)).
  pose proof (Z.mod_pos_bound (size / 256) 256 ltac:(lia)).
  pose proof (Z.mod_pos_bound (size / 256 / 256) 256 ltac:(lia)).
  pose proof (Z.mod_pos_bound (size / 256 / 256 / 256) 256 ltac:(lia)).
  assert (size / 256 / 256 / 256 / 256 = 0); [|lia].
  rewrite !Z.div_div by lia. apply Z.div_small. lia.
Qed.

(** X23.  The CDR message [pushData] builds can be read back: for a blob of
    fewer than 2^32 bytes the message is the four header bytes, the size of
    the blob in four bytes with the least significant first, and the blob; all
    eight leading values are bytes, and reading the message gives the blob
    again. *)
Theorem cdrMessage_round_trip (blob : list Z) :
  Z.of_nat (length blob) < 2 ^ 32 →
  readCdrMessage (cdrMessage blob) = Some blob ∧
  length (cdrMessage blob) = (8 + length blob)%nat ∧
  readUint32LE (take 4 (drop 4 (cdrMessage blob))) = Some (Z.of_nat (length blob)) ∧
  Forall (λ b, 0 ≤ b < 256) (take 8 (cdrMessage blob)).
Proof.
  intros Hs. pose proof (size_bytes (Z.of_nat (length blob)) ltac:(lia)) as Hsum.
  assert (readUint32LE (take 4 (drop 4 (cdrMessage blob))) =
          Some (Z.of_nat (length blob))) as Hsize.
  { unfold cdrMessage. simpl. by rewrite Hsum. }
  split_and!; [|done|done|].
  - unfold readCdrMessage. rewrite Hsize.
    unfold cdrMessage. simpl. rewrite Z.eqb_refl. done.
  - unfold cdrMessage. simpl.
    repeat (constructor; [unfold toByte; try lia; apply Z.mod_pos_bound; lia|]).
    constructor.
Qed.

Lemma cdrMessage_round_trip_witness :
  readCdrMessage (cdrMessage MyBlobDataSource.blob) = Some MyBlobDataSource.blob.
Proof.
  apply cdrMessage_round_trip. simpl. lia.
Defined.

End BlobMore.
